(** * eldim: validation of the configuration file and of the client roster

    Shallow embedding of [config/config.go] of github.com/daknob/eldim:
    [Config.Validate], [ClientConfig.Validate], [ClientConfig.Name],
    [ClientConfig.IPv4] and [ClientConfig.IPv6], together with the two
    functions of Go's [net] package they call ([net.ParseIP] and
    [net.IP.String]). *)

From Stdlib Require Import ZArith String Ascii List Bool Lia DecimalString.
From stdpp Require Import base option list gmap strings.

Local Open Scope Z_scope.

(** ** Strings as Go sees them: sequences of bytes *)

Module gostring.

Definition byteOf (c : ascii) : Z := Z.of_N (N_of_ascii c).

(** [len(s)] *)
Definition len (s : string) : nat := String.length s.

(** [s[n:]] *)
Fixpoint skip (n : nat) (s : string) : string :=
  match n, s with
  | O, _ => s
  | S n', String _ s' => skip n' s'
  | S _, EmptyString => EmptyString
  end.

(** [s[i] == c]; false when [i] is out of range *)
Definition byteIs (s : string) (i : nat) (c : ascii) : bool :=
  match String.get i s with
  | Some d => bool_decide (d = c)
  | None => false
  end.

(** [s == ""] *)
Definition isEmpty (s : string) : bool :=
  match s with EmptyString => true | String _ _ => false end.

(** [strings.HasPrefix(s, p)] *)
Fixpoint HasPrefix (s p : string) : bool :=
  match p, s with
  | EmptyString, _ => true
  | String _ _, EmptyString => false
  | String a p', String b s' => bool_decide (a = b) && HasPrefix s' p'
  end.

(** [strings.Contains(s, substr)] *)
Fixpoint Contains (s substr : string) : bool :=
  HasPrefix s substr ||
  match s with
  | EmptyString => false
  | String _ s' => Contains s' substr
  end.

(** [%d] of a non-negative integer *)
Definition itoa (n : nat) : string := NilZero.string_of_uint (Nat.to_uint n).

End gostring.

(** ** Go's [net] package: [ParseIP] and [IP.String]

    [config.go] calls [net.ParseIP] on every configured address and
    [net.IP.String] on the result.  The functions below follow
    [net/ip.go] and [net/parse.go] of the Go distribution, with the
    rejection of leading zeros in IPv4 octets that Go 1.17 introduced.
    [ParseIP] returns nil or the 16-byte form of the address; [String]
    prints the 16-byte form of an IPv4 address in dotted decimal. *)

Module net.
Import gostring.

Definition IPv4len : nat := 4.
Definition IPv6len : nat := 16.

(** [type IP []byte]; the nil slice is the empty list. *)
Abbreviation IP := (list Z).

(** [p[i]]; every use below is guarded by a length test. *)
Definition at_ (p : IP) (i : nat) : Z := default 0 (p !! i).

(** Bigger than we need, not too big to worry about overflow *)
Definition big : Z := 0xFFFFFF.

Definition dtoi_done (n : Z) (i : nat) : Z * nat * bool :=
  match i with O => (0, O, false) | _ => (n, i, true) end.

(** Decimal to integer: the number, characters consumed, success. *)
Fixpoint dtoi_from (s : string) (n : Z) (i : nat) : Z * nat * bool :=
  match s with
  | String c s' =>
      if (48 <=? byteOf c) && (byteOf c <=? 57) then
        let n' := n * 10 + (byteOf c - 48) in
        if big <=? n' then (big, i, false) else dtoi_from s' n' (S i)
      else dtoi_done n i
  | EmptyString => dtoi_done n i
  end.

Definition dtoi (s : string) : Z * nat * bool := dtoi_from s 0 O.

Definition xdigit (b : Z) : option Z :=
  if (48 <=? b) && (b <=? 57) then Some (b - 48)
  else if (97 <=? b) && (b <=? 102) then Some (b - 97 + 10)
  else if (65 <=? b) && (b <=? 70) then Some (b - 65 + 10)
  else None.

(** Hexadecimal to integer: the number, characters consumed, success. *)
Fixpoint xtoi_from (s : string) (n : Z) (i : nat) : Z * nat * bool :=
  match s with
  | String c s' =>
      match xdigit (byteOf c) with
      | Some d =>
          let n' := n * 16 + d in
          if big <=? n' then (0, i, false) else xtoi_from s' n' (S i)
      | None => dtoi_done n i
      end
  | EmptyString => dtoi_done n i
  end.

Definition xtoi (s : string) : Z * nat * bool := xtoi_from s 0 O.

(** [IPv4(a, b, c, d)]: the 16-byte form of an IPv4 address *)
Definition IPv4 (a b c d : Z) : IP :=
  [0; 0; 0; 0; 0; 0; 0; 0; 0; 0; 0xff; 0xff; a; b; c; d].

(** The loop of [parseIPv4]: [k] octets left to read, [i] read so far.
    [None] stands for [return nil]. *)
Fixpoint parseIPv4_loop (k i : nat) (s : string) (p : IP)
  : option (string * IP) :=
  match k with
  | O => Some (s, p)
  | S k' =>
      if isEmpty s then None (* missing octets *)
      else
        if negb (i =? 0)%nat && negb (byteIs s 0 ".") then None
        else
          let s := if (i =? 0)%nat then s else skip 1 s in
          let '(n, c, ok) := dtoi s in
          if negb ok || (0xFF <? n) then None
          else if (1 <? c)%nat && byteIs s 0 "0" then None
          else parseIPv4_loop k' (S i) (skip c s) (<[i := n]> p)
  end.

(** Parse IPv4 address (d.d.d.d). *)
Definition parseIPv4 (s : string) : IP :=
  match parseIPv4_loop IPv4len 0 s [0; 0; 0; 0] with
  | None => []
  | Some (s', p) =>
      if negb (isEmpty s') then []
      else IPv4 (at_ p 0) (at_ p 1) (at_ p 2) (at_ p 3)
  end.

(** State of the loop of [parseIPv6]. *)
Record v6state := V6 {
  v6_s : string;
  v6_i : nat;
  v6_ellipsis : Z;
  v6_ip : IP
}.

(** The loop [for i < IPv6len] of [parseIPv6]; [None] stands for
    [return nil], [Some] for leaving the loop.  Every round but the last
    advances [i] by two, so eight rounds of fuel never run out. *)
Fixpoint parseIPv6_loop (fuel : nat) (st : v6state) : option v6state :=
  match fuel with
  | O => Some st
  | S fuel' =>
      let '(V6 s i ellipsis ip) := st in
      if negb (i <? IPv6len)%nat then Some st
      else
        let '(n, c, ok) := xtoi s in
        if negb ok || (0xFFFF <? n) then None
        else if (c <? len s)%nat && byteIs s c "." then
          (* trailing IPv4 *)
          if (ellipsis <? 0) && negb (i =? IPv6len - IPv4len)%nat then None
          else if (IPv6len <? i + IPv4len)%nat then None
          else
            let ip4 := parseIPv4 s in
            match ip4 with
            | [] => None
            | _ =>
                let ip := <[i := at_ ip4 12]> ip in
                let ip := <[(i + 1)%nat := at_ ip4 13]> ip in
                let ip := <[(i + 2)%nat := at_ ip4 14]> ip in
                let ip := <[(i + 3)%nat := at_ ip4 15]> ip in
                Some (V6 EmptyString (i + IPv4len)%nat ellipsis ip)
            end
        else
          (* save this 16-bit chunk *)
          let ip := <[i := Z.land (Z.shiftr n 8) 0xff]> ip in
          let ip := <[(i + 1)%nat := Z.land n 0xff]> ip in
          let i := (i + 2)%nat in
          let s := skip c s in
          if isEmpty s then Some (V6 s i ellipsis ip)
          else if negb (byteIs s 0 ":") || (len s =? 1)%nat then None
          else
            let s := skip 1 s in
            if byteIs s 0 ":" then
              if 0 <=? ellipsis then None (* already have one *)
              else
                let ellipsis := Z.of_nat i in
                let s := skip 1 s in
                if isEmpty s then Some (V6 s i ellipsis ip)
                else parseIPv6_loop fuel' (V6 s i ellipsis ip)
            else parseIPv6_loop fuel' (V6 s i ellipsis ip)
  end.

(** [for j := hi; j >= lo; j-- { body }] *)
Definition downto (hi lo : Z) (body : IP -> nat -> IP) (ip : IP) : IP :=
  foldl body ip (rev (seq (Z.to_nat lo) (Z.to_nat (hi - lo + 1)))).

(** Parse IPv6 address: hex groups, [::] ellipsis, trailing IPv4. *)
Definition parseIPv6 (s : string) : IP :=
  let ip := replicate IPv6len 0 in
  let leading := (2 <=? len s)%nat && byteIs s 0 ":" && byteIs s 1 ":" in
  let ellipsis := if leading then 0 else -1 in
  let s := if leading then skip 2 s else s in
  if leading && isEmpty s then ip (* only ellipsis *)
  else
    match parseIPv6_loop 8 (V6 s 0 ellipsis ip) with
    | None => []
    | Some (V6 s i ellipsis ip) =>
        if negb (isEmpty s) then [] (* must have used entire string *)
        else if (i <? IPv6len)%nat then
          (* did not parse enough: expand the ellipsis *)
          if ellipsis <? 0 then []
          else
            let n := (IPv6len - i)%nat in
            let ip := downto (Z.of_nat i - 1) ellipsis
                        (fun ip j => <[(j + n)%nat := at_ ip j]> ip) ip in
            downto (ellipsis + Z.of_nat n - 1) ellipsis
              (fun ip j => <[j := 0]> ip) ip
        else if 0 <=? ellipsis then []
        else ip
    end.

(** [ParseIP] looks for the first dot or colon to choose the parser. *)
Fixpoint ParseIP_scan (s rest : string) : IP :=
  match rest with
  | EmptyString => []
  | String c rest' =>
      if bool_decide (c = "."%char) then parseIPv4 s
      else if bool_decide (c = ":"%char) then parseIPv6 s
      else ParseIP_scan s rest'
  end.

Definition ParseIP (s : string) : IP := ParseIP_scan s s.

(** [isZeros(p)] *)
Definition isZeros (p : IP) : bool := forallb (Z.eqb 0) p.

(** [ip.To4()]: the 4-byte form of an IPv4 address, nil otherwise *)
Definition To4 (ip : IP) : IP :=
  if (length ip =? IPv4len)%nat then ip
  else if (length ip =? IPv6len)%nat && isZeros (take 10 ip)
          && (at_ ip 10 =? 0xff) && (at_ ip 11 =? 0xff)
  then take 4 (drop 12 ip)
  else [].

(** [uitoa]: decimal form of an unsigned integer *)
Definition uitoa (v : Z) : string := itoa (Z.to_nat v).

Definition hexDigit : string := "0123456789abcdef".

Definition hexChar (v : Z) : string :=
  match String.get (Z.to_nat v) hexDigit with
  | Some c => String c EmptyString
  | None => EmptyString
  end.

(** [appendHex(dst, i)]: lower-case hexadecimal without leading zeros *)
Definition appendHex (dst : string) (i : Z) : string :=
  if i =? 0 then dst +:+ "0"
  else
    foldl (fun dst j =>
             let v := Z.shiftr i (Z.of_nat j * 4) in
             if 0 <? v then dst +:+ hexChar (Z.land v 0xf) else dst)
          dst [7; 6; 5; 4; 3; 2; 1; 0]%nat.

(** [hexString(b)] *)
Definition hexString (b : IP) : string :=
  foldl (fun s tn => s +:+ hexChar (Z.shiftr tn 4) +:+ hexChar (Z.land tn 0xf))
        EmptyString b.

(** [for j < IPv6len && p[j] == 0 && p[j+1] == 0 { j += 2 }] *)
Fixpoint zerosEnd (fuel : nat) (p : IP) (j : nat) : nat :=
  match fuel with
  | O => j
  | S fuel' =>
      if (j <? IPv6len)%nat && (at_ p j =? 0) && (at_ p (j + 1) =? 0)
      then zerosEnd fuel' p (j + 2)
      else j
  end.

(** Find the longest run of zero groups, [(e0, e1)]. *)
Fixpoint longestRun (fuel : nat) (p : IP) (i : nat) (e0 e1 : Z) : Z * Z :=
  match fuel with
  | O => (e0, e1)
  | S fuel' =>
      if negb (i <? IPv6len)%nat then (e0, e1)
      else
        let j := zerosEnd 8 p i in
        if (i <? j)%nat && (e1 - e0 <? Z.of_nat j - Z.of_nat i)
        then longestRun fuel' p (j + 2) (Z.of_nat i) (Z.of_nat j)
        else longestRun fuel' p (i + 2) e0 e1
  end.

(** Print the groups with [::] in place of the run [(e0, e1)]. *)
Fixpoint printGroups (fuel : nat) (p : IP) (e0 e1 : Z) (i : nat) (b : string)
  : string :=
  match fuel with
  | O => b
  | S fuel' =>
      if negb (i <? IPv6len)%nat then b
      else if Z.of_nat i =? e0 then
        let b := b +:+ "::" in
        let i := Z.to_nat e1 in
        if (IPv6len <=? i)%nat then b
        else
          printGroups fuel' p e0 e1 (i + 2)
            (appendHex b (Z.lor (Z.shiftl (at_ p i) 8) (at_ p (i + 1))))
      else
        let b := if (0 <? i)%nat then b +:+ ":" else b in
        printGroups fuel' p e0 e1 (i + 2)
          (appendHex b (Z.lor (Z.shiftl (at_ p i) 8) (at_ p (i + 1))))
  end.

(** [ip.String()]: dotted decimal for IPv4 addresses (also in their
    16-byte form), RFC 5952 text for IPv6 addresses. *)
Definition String (ip : IP) : string :=
  if (length ip =? 0)%nat then "<nil>"
  else
    let p4 := To4 ip in
    if (length p4 =? IPv4len)%nat then
      uitoa (at_ p4 0) +:+ "." +:+ uitoa (at_ p4 1) +:+ "." +:+
      uitoa (at_ p4 2) +:+ "." +:+ uitoa (at_ p4 3)
    else if negb (length ip =? IPv6len)%nat then "?" +:+ hexString ip
    else
      let '(e0, e1) := longestRun 8 ip 0 (-1) (-1) in
      (* "::" is not used to shorten just one 16-bit zero field *)
      let '(e0, e1) := if e1 - e0 <=? 2 then (-1, -1) else (e0, e1) in
      printGroups 8 ip e0 e1 0 EmptyString.

End net.

(** ** Package [config] *)

Module config.
Import gostring.

(** *** Errors

    A Go function that returns [error] returns [Ok tt] for [nil] and
    [Err e] otherwise; [m ;; k] runs [k] only when [m] did not return. *)

Inductive res (E A : Type) : Type :=
| Ok (a : A)
| Err (e : E).
Arguments Ok {E A} a.
Arguments Err {E A} e.

Definition bind {E A B} (m : res E A) (k : A -> res E B) : res E B :=
  match m with
  | Ok a => k a
  | Err e => Err e
  end.

Notation "x <- m ;; k" := (bind m (fun x => k))
  (at level 100, m at next level, right associativity).
Notation "m ;; k" := (bind m (fun _ => k))
  (at level 100, right associativity).

(** [if b { return e }] *)
Definition failIf {E} (b : bool) (e : E) : res E unit :=
  if b then Err e else Ok tt.

(** [for _, x := range l { body }] where the body may return *)
Fixpoint forEach {E A} (body : A -> res E unit) (l : list A) : res E unit :=
  match l with
  | [] => Ok tt
  | x :: l' => body x ;; forEach body l'
  end.

(** [for i, x := range l { body }], [i] counting from [start] *)
Fixpoint forEachI {E A} (body : nat -> A -> res E unit) (start : nat)
         (l : list A) : res E unit :=
  match l with
  | [] => Ok tt
  | x :: l' => body start x ;; forEachI body (S start) l'
  end.

(** An [error] of a library, by its message. *)
Abbreviation error := string (only parsing).

(** *** ClientConfig *)

(** ClientConfig is the data structure containing all information about
    a client that can connect to the eldim service *)
Record ClientConfig := {
  ClientName : string;
  IPv4Addr : list string;
  IPv6Addr : list string;
  Password : string
}.

(** The errors of [ClientConfig.Validate], one per [return]. *)
Inductive ClientError :=
| ErrClientNoName
| ErrClientInvalidIP
| ErrClientNonIPv4 (v4 : string)
| ErrClientNonIPv6 (v6 : string)
| ErrClientNoCredential
| ErrClientPasswordShort
| ErrClientPasswordLong.

(** The message [fmt.Errorf] builds for each of them. *)
Definition ClientError_Error (e : ClientError) : string :=
  match e with
  | ErrClientNoName => "Client has no name"
  | ErrClientInvalidIP => "Client contains an invalid IP Address"
  | ErrClientNonIPv4 v4 =>
      "Client contains a non-IPv4 in IPv4 list: " +:+ v4
  | ErrClientNonIPv6 v6 =>
      "Client contains a non-IPv6 in IPv6 list: " +:+ v6
  | ErrClientNoCredential =>
      "Client does not have at least one of (password, IPv6, IPv4)"
  | ErrClientPasswordShort =>
      "Client has a password shorter than 32 characters: 32-128 are acceptable"
  | ErrClientPasswordLong =>
      "Client has a password longer than 128 characters: 32-128 are acceptable"
  end.

(** IPv4 returns the list of client IPv4 Addresses *)
Definition ClientConfig_IPv4 (client : ClientConfig) : list net.IP :=
  map net.ParseIP (IPv4Addr client).

(** IPv6 returns the list of client IPv6 Addresses *)
Definition ClientConfig_IPv6 (client : ClientConfig) : list net.IP :=
  map net.ParseIP (IPv6Addr client).

(** Name returns the name of the client, as configured.  The receiver is
    a pointer and the method writes to it: the result is the name together
    with the client as the call leaves it. *)
Definition ClientConfig_Name (client : ClientConfig) : string * ClientConfig :=
  let client :=
    if bool_decide (ClientName client = "")
    then {| ClientName := "Unnamed Client";
            IPv4Addr := IPv4Addr client;
            IPv6Addr := IPv6Addr client;
            Password := Password client |}
    else client in
  (ClientName client, client).

(** [ip == nil] *)
Definition isNil (ip : net.IP) : bool :=
  match ip with [] => true | _ => false end.

(** Validate validates a single client entry from the client
    configuration file *)
Definition ClientConfig_Validate (client : ClientConfig)
  : res ClientError unit :=
  (* Check if client has name *)
  failIf (bool_decide (ClientName client = "")) ErrClientNoName ;;
  (* Make sure all IP Addresses can be parsed *)
  forEach (fun ip => failIf (isNil ip) ErrClientInvalidIP)
          (ClientConfig_IPv6 client ++ ClientConfig_IPv4 client) ;;
  (* Ensure IPv4 are in IPv4 and IPv6 are in IPv6 *)
  forEach (fun v4 =>
             failIf (negb (Contains (net.String v4) "."))
                    (ErrClientNonIPv4 (net.String v4)))
          (ClientConfig_IPv4 client) ;;
  forEach (fun v6 =>
             failIf (negb (Contains (net.String v6) ":")
                     || Contains (net.String v6) ".")
                    (ErrClientNonIPv6 (net.String v6)))
          (ClientConfig_IPv6 client) ;;
  (* Ensure there is at least one of (password, IP) *)
  failIf (bool_decide (Password client = "")
          && (length (ClientConfig_IPv4 client) =? 0)%nat
          && (length (ClientConfig_IPv6 client) =? 0)%nat)
         ErrClientNoCredential ;;
  (* Enforce client authentication password policy *)
  failIf ((len (Password client) <? 32)%nat
          && negb (bool_decide (Password client = "")))
         ErrClientPasswordShort ;;
  failIf (128 <? len (Password client))%nat ErrClientPasswordLong ;;
  Ok tt.

(** *** What [Config.Validate] calls outside this package

    The backend packages ([internal/swift], [internal/gcs],
    [internal/s3]), the file system ([os.Open], [File.Close],
    [ioutil.ReadFile]), [yaml.Unmarshal] into a [[]ClientConfig], and
    the recipient parsers of [filippo.io/age] are parameters of the
    development: a backend definition is any type with a [Validate]
    and a [Name] method, a file system is any assignment of outcomes to
    paths. *)
Class Platform := {
  swift_BackendConfig : Type;
  swift_Validate : swift_BackendConfig -> res error unit;
  swift_Name : swift_BackendConfig -> string;
  gcs_BackendConfig : Type;
  gcs_Validate : gcs_BackendConfig -> res error unit;
  gcs_Name : gcs_BackendConfig -> string;
  s3_BackendConfig : Type;
  s3_Validate : s3_BackendConfig -> res error unit;
  s3_Name : s3_BackendConfig -> string;
  File : Type;
  os_Open : string -> res error File;
  File_Close : File -> res error unit;
  ioutil_ReadFile : string -> res error string;
  yaml_Unmarshal : string -> res error (list ClientConfig);
  age_ParseX25519Recipient : string -> res error unit;
  agessh_ParseRecipient : string -> res error unit
}.

(** The errors of [Config.Validate], one per [return]. *)
Inductive ConfigError :=
| ErrPortNegative
| ErrPortTooLarge
| ErrTLSChainRequired
| ErrTLSChainOpen (err : error)
| ErrTLSChainClose (err : error)
| ErrTLSKeyRequired
| ErrTLSKeyOpen (err : error)
| ErrTLSKeyClose (err : error)
| ErrSwiftBackend (name : string) (err : error)
| ErrGCSBackend (name : string) (err : error)
| ErrS3Backend (name : string) (err : error)
| ErrNoBackend
| ErrMaxUploadRAM
| ErrEncryptionKeyDeprecated
| ErrNoAgeKey
| ErrAgeID (r : string) (err : error)
| ErrAgeSSH (r : string) (err : error)
| ErrPrometheusUserMissing
| ErrPrometheusUserPattern
| ErrPrometheusPassMissing
| ErrPrometheusPassPattern
| ErrNoClientFile
| ErrClientFileOpen (err : error)
| ErrClientFileYAML (err : error)
| ErrNoClients
| ErrClientInvalid (name : string) (pos : nat) (err : ClientError)
| ErrClientDupName (pos : nat) (name : string)
| ErrClientDupPassword (pos : nat) (name : string)
| ErrClientDupIP (name : string) (pos : nat) (ip : string).

(** The message [fmt.Errorf] builds for each of them. *)
Definition ConfigError_Error (e : ConfigError) : string :=
  match e with
  | ErrPortNegative => "TCP Listening Port must be positive number"
  | ErrPortTooLarge => "TCP Listening Port must be below 65535"
  | ErrTLSChainRequired =>
      "TLS Chain File is required. eldim works only with HTTPS"
  | ErrTLSChainOpen err => "Failed to open TLS Chain File: " +:+ err
  | ErrTLSChainClose err => "Failed to close TLS Chain File: " +:+ err
  | ErrTLSKeyRequired =>
      "TLS Key File is required. eldim works only with HTTPS"
  | ErrTLSKeyOpen err => "Failed to open TLS Key File: " +:+ err
  | ErrTLSKeyClose err => "Failed to close TLS Key File: " +:+ err
  | ErrSwiftBackend name err =>
      "Failed to validate OpenStack Swift Backend '" +:+ name +:+ "': "
      +:+ err
  | ErrGCSBackend name err =>
      "Failed to validate Google Cloud Storage Backend '" +:+ name +:+ "': "
      +:+ err
  | ErrS3Backend name err =>
      "Failed to validate S3 Backend '" +:+ name +:+ "': " +:+ err
  | ErrNoBackend => "eldim needs at least one backend to operate, 0 found"
  | ErrMaxUploadRAM => "Maximum Upload RAM must be a positive number"
  | ErrEncryptionKeyDeprecated =>
      "Use of encryption key is deprecated since v0.6.0. Please consult the docs"
  | ErrNoAgeKey => "Please configure at least one age encryption key"
  | ErrAgeID r err =>
      "Failed to parse age Identity '" +:+ r +:+ "': " +:+ err
  | ErrAgeSSH r err =>
      "Failed to parse age ssh key Identity '" +:+ r +:+ "': " +:+ err
  | ErrPrometheusUserMissing =>
      "You need to set the prometheusauthuser in the configuration file. eldim only works with HTTP Basic Auth for Prometheus Metrics"
  | ErrPrometheusUserPattern =>
      "The prometheusauthuser must contain a-z, A-Z, and 0-9, and must be 20-128 characters long"
  | ErrPrometheusPassMissing =>
      "You need to set the prometheusauthpass in the configuration file. eldim only works with HTTP Basic Auth for Prometheus Metrics"
  | ErrPrometheusPassPattern =>
      "The prometheusauthpass must contain a-z, A-Z, and 0-9, and must be 20-128 characters long"
  | ErrNoClientFile => "Did not supply a clients config file"
  | ErrClientFileOpen err => "Failed to open clients file: " +:+ err
  | ErrClientFileYAML err => "Unable to decode client file YAML: " +:+ err
  | ErrNoClients => "No clients have been supplied. eldim will not work"
  | ErrClientInvalid name pos err =>
      "Client '" +:+ name +:+ "' (" +:+ itoa pos +:+ ") is invalid: "
      +:+ ClientError_Error err
  | ErrClientDupName pos name =>
      "Client " +:+ itoa pos +:+ " does not have a unique name: " +:+ name
  | ErrClientDupPassword pos name =>
      "Client " +:+ itoa pos +:+ " does not have a unique password: "
      +:+ name
  | ErrClientDupIP name pos ip =>
      "Client '" +:+ name +:+ "' (" +:+ itoa pos
      +:+ ") reuses an IP Address: " +:+ ip
  end.

(** [regexp.MustCompile("^[a-zA-Z0-9]{20,128}$").MatchString(s)]: the
    pattern is anchored at both ends of the text and its class holds
    one-byte characters only, so it matches exactly the strings of 20 to
    128 bytes that are all ASCII letters or digits. *)
Definition isAlnum (c : ascii) : bool :=
  let b := byteOf c in
  ((97 <=? b) && (b <=? 122)) || ((65 <=? b) && (b <=? 90))
  || ((48 <=? b) && (b <=? 57)).

Definition matchAuth (s : string) : bool :=
  forallb isAlnum (list_ascii_of_string s)
  && (20 <=? len s)%nat && (len s <=? 128)%nat.

(** [m[k]] on a [map[string]bool]: false when the key is absent *)
Definition mapGet (m : gmap string bool) (k : string) : bool :=
  default false (m !! k).

(** [m[k] = true] *)
Definition mapSet (m : gmap string bool) (k : string) : gmap string bool :=
  <[k := true]> m.

(** [x, err := call(); if err != nil { return fmt.Errorf(msg, err) }] *)
Definition wrap {A} (mk : error -> ConfigError) (m : res error A)
  : res ConfigError A :=
  match m with
  | Ok a => Ok a
  | Err err => Err (mk err)
  end.

Section Validation.
Context `{Platform}.

(** *** Config *)

(** Config is the data structure outlying the configuration file of
    eldim.  [ListenPort] is an [int] and [MaxUploadRAM] an [int64];
    they are only compared with constants. *)
Record Config := {
  (* Web Server Settings *)
  ListenPort : Z;
  ServerTokens : bool;
  MaxUploadRAM : Z;
  (* TLS Settings *)
  TLSChainPath : string;
  TLSKeyPath : string;
  (* Backend Server *)
  SwiftBackends : list swift_BackendConfig;
  GCSBackends : list gcs_BackendConfig;
  S3Backends : list s3_BackendConfig;
  (* Clients *)
  ClientFile : string;
  (* Encryption *)
  EncryptionKey : string; (* Deprecated in eldim v0.6.0 *)
  Encryption_AgeID : list string;
  Encryption_AgeSSH : list string;
  (* Prometheus Metrics *)
  PrometheusEnabled : bool;
  PrometheusAuthUser : string;
  PrometheusAuthPass : string
}.

(** The three maps of the duplicate check. *)
Record seen := Seen {
  nameSet : gmap string bool;
  passSet : gmap string bool;
  ipSet : gmap string bool
}.

(** Duplicate IP Check: the inner loop over
    [append(c.IPv6(), c.IPv4()...)] for client [c] at index [i]. *)
Fixpoint dupIPs (c : ClientConfig) (i : nat) (ips : list net.IP)
         (ipSet : gmap string bool)
  : res ConfigError (gmap string bool) :=
  match ips with
  | [] => Ok ipSet
  | ip :: ips' =>
      if mapGet ipSet (net.String ip) then
        Err (ErrClientDupIP (fst (ClientConfig_Name c)) (i + 1)
                            (net.String ip))
      else dupIPs c i ips' (mapSet ipSet (net.String ip))
  end.

(** The body of the loop that checks for duplicate names, passwords
    and IPs; [c] is the loop's copy of the entry, which the calls of
    [c.Name()] may write to. *)
Definition dupCheck (i : nat) (c : ClientConfig) (st : seen)
  : res ConfigError seen :=
  (* Duplicate Name Check *)
  let '(name, c) := ClientConfig_Name c in
  if mapGet (nameSet st) name then
    let '(name, c) := ClientConfig_Name c in
    Err (ErrClientDupName (i + 1) name)
  else
    let '(name, c) := ClientConfig_Name c in
    let names := mapSet (nameSet st) name in
    (* Duplicate Password Check *)
    passes <-
      (if negb (bool_decide (Password c = "")) then
         if mapGet (passSet st) (Password c) then
           let '(name, c) := ClientConfig_Name c in
           Err (ErrClientDupPassword (i + 1) name)
         else Ok (mapSet (passSet st) (Password c))
       else Ok (passSet st)) ;;
    (* Duplicate IP Check *)
    ips <- dupIPs c i (ClientConfig_IPv6 c ++ ClientConfig_IPv4 c)
                  (ipSet st) ;;
    Ok (Seen names passes ips).

Fixpoint dupLoop (i : nat) (clients : list ClientConfig) (st : seen)
  : res ConfigError unit :=
  match clients with
  | [] => Ok tt
  | c :: clients' => st' <- dupCheck i c st ;; dupLoop (S i) clients' st'
  end.

(** Validate validates the eldim configuration file and returns the
    first error that occured *)
Definition Config_Validate (conf : Config) : res ConfigError unit :=
  (* Validate Listening Port *)
  failIf (ListenPort conf <? 0) ErrPortNegative ;;
  failIf (65535 <? ListenPort conf) ErrPortTooLarge ;;
  (* Validate TLS Chain File *)
  failIf (bool_decide (TLSChainPath conf = "")) ErrTLSChainRequired ;;
  f <- wrap ErrTLSChainOpen (os_Open (TLSChainPath conf)) ;;
  wrap ErrTLSChainClose (File_Close f) ;;
  (* Validate TLS Key File *)
  failIf (bool_decide (TLSKeyPath conf = "")) ErrTLSKeyRequired ;;
  f <- wrap ErrTLSKeyOpen (os_Open (TLSKeyPath conf)) ;;
  wrap ErrTLSKeyClose (File_Close f) ;;
  (* Validate Backends *)
  forEach (fun b => wrap (ErrSwiftBackend (swift_Name b)) (swift_Validate b))
          (SwiftBackends conf) ;;
  forEach (fun b => wrap (ErrGCSBackend (gcs_Name b)) (gcs_Validate b))
          (GCSBackends conf) ;;
  forEach (fun b => wrap (ErrS3Backend (s3_Name b)) (s3_Validate b))
          (S3Backends conf) ;;
  (* Ensure there is at least one backend *)
  failIf (length (SwiftBackends conf) + length (GCSBackends conf)
          + length (S3Backends conf) =? 0)%nat ErrNoBackend ;;
  (* Validate Max Upload RAM (in MB) *)
  failIf (MaxUploadRAM conf <=? 0) ErrMaxUploadRAM ;;
  (* Validate Encryption Key *)
  failIf (negb (bool_decide (EncryptionKey conf = "")))
         ErrEncryptionKeyDeprecated ;;
  failIf (length (Encryption_AgeID conf)
          + length (Encryption_AgeSSH conf) =? 0)%nat ErrNoAgeKey ;;
  forEach (fun r => wrap (ErrAgeID r) (age_ParseX25519Recipient r))
          (Encryption_AgeID conf) ;;
  forEach (fun r => wrap (ErrAgeSSH r) (agessh_ParseRecipient r))
          (Encryption_AgeSSH conf) ;;
  (* Validate Prometheus Settings *)
  (if PrometheusEnabled conf then
     (* Only check Prometheus Configuration if Prometheus is enabled *)
     failIf (bool_decide (PrometheusAuthUser conf = ""))
            ErrPrometheusUserMissing ;;
     failIf (negb (matchAuth (PrometheusAuthUser conf)))
            ErrPrometheusUserPattern ;;
     failIf (bool_decide (PrometheusAuthPass conf = ""))
            ErrPrometheusPassMissing ;;
     failIf (negb (matchAuth (PrometheusAuthPass conf)))
            ErrPrometheusPassPattern
   else Ok tt) ;;
  (* Validate Client Config *)
  failIf (bool_decide (ClientFile conf = "")) ErrNoClientFile ;;
  (* Attempt to read the Clients File *)
  fc <- wrap ErrClientFileOpen (ioutil_ReadFile (ClientFile conf)) ;;
  (* Unmarshal the YAML Clients File *)
  clients <- wrap ErrClientFileYAML (yaml_Unmarshal fc) ;;
  (* Check if clients have been supplied *)
  failIf (length clients =? 0)%nat ErrNoClients ;;
  (* Validate clients individually *)
  forEachI (fun i c =>
              match ClientConfig_Validate c with
              | Ok _ => Ok tt
              | Err err =>
                  Err (ErrClientInvalid (fst (ClientConfig_Name c))
                                        (i + 1) err)
              end) 0 clients ;;
  (* Check for duplicate names / passwords / IPs *)
  dupLoop 0 clients (Seen ∅ ∅ ∅).

End Validation.

(** *** Backend clients *)

Section Clients.
Context `{Platform}.

(** [backend.Client] and the constructors [swift.New], [gcs.New] and
    [s3.New] of the backend packages, which [Clients] calls with the
    background context. *)
Context {backend_Client : Type}.
Context (swift_New : swift_BackendConfig -> backend_Client).
Context (gcs_New : gcs_BackendConfig -> backend_Client).
Context (s3_New : s3_BackendConfig -> backend_Client).

(** [for _, be := range l { ret = append(ret, new(be)) }] *)
Definition appendEach {A} (new : A -> backend_Client) (l : list A)
           (ret : list backend_Client) : list backend_Client :=
  foldl (fun ret be => ret ++ [new be]) ret l.

(** Clients returns all configured Backend Clients *)
Definition Config_Clients (conf : Config) : list backend_Client :=
  let ret := [] in
  (* OpenStack Swift *)
  let ret := appendEach swift_New (SwiftBackends conf) ret in
  (* Google Cloud Storage *)
  let ret := appendEach gcs_New (GCSBackends conf) ret in
  (* S3 *)
  let ret := appendEach s3_New (S3Backends conf) ret in
  (* Return all clients *)
  ret.

End Clients.

End config.

(** ** A concrete installation

    A small instance of the parameters, on which the properties below are
    exercised: backend definitions that validate when their endpoint is
    set, a file system in which the listed paths open, a client file whose
    decoding is the given roster, and recipient parsers that look at the
    key's prefix only. *)

Module example.
Import gostring config.

Record BackendConfig := {
  BackendName : string;
  Endpoint : string
}.

Definition BackendConfig_Validate (b : BackendConfig) : res error unit :=
  if bool_decide (Endpoint b = "") then Err "endpoint is empty" else Ok tt.

Definition paths : list string :=
  ["/etc/eldim/fullchain.pem"; "/etc/eldim/privkey.pem";
   "/etc/eldim/clients.yml"].

Definition open (path : string) : res error string :=
  if bool_decide (path ∈ paths) then Ok path
  else Err ("open " +:+ path +:+ ": no such file or directory").

Definition parseWithPrefix (prefix r : string) : res error unit :=
  if HasPrefix r prefix then Ok tt else Err "malformed recipient".

#[local] Instance installation (roster : list ClientConfig) : Platform := {|
  swift_BackendConfig := BackendConfig;
  swift_Validate := BackendConfig_Validate;
  swift_Name := BackendName;
  gcs_BackendConfig := BackendConfig;
  gcs_Validate := BackendConfig_Validate;
  gcs_Name := BackendName;
  s3_BackendConfig := BackendConfig;
  s3_Validate := BackendConfig_Validate;
  s3_Name := BackendName;
  File := string;
  os_Open := open;
  File_Close := fun _ => Ok tt;
  ioutil_ReadFile := open;
  yaml_Unmarshal := fun _ => Ok roster;
  age_ParseX25519Recipient := parseWithPrefix "age1";
  agessh_ParseRecipient := parseWithPrefix "ssh-ed25519 "
|}.

Definition offsite : BackendConfig :=
  {| BackendName := "offsite"; Endpoint := "s3.example.org" |}.

Definition recipient : string :=
  "age1ql3z7hjy54pw3hyww5ayyfg7zqgvc7w3j2elw8zmrj2kg5sfn9aqmcac8p".

(** The configuration file of the installation, up to the settings the
    properties vary. *)
Definition configure (port : Z) (s3 : list BackendConfig) (key : string)
           (ageid : list string) (metrics : bool) (user pass : string)
           (roster : list ClientConfig) : @Config (installation roster) :=
  {| ListenPort := port;
     ServerTokens := false;
     MaxUploadRAM := 100;
     TLSChainPath := "/etc/eldim/fullchain.pem";
     TLSKeyPath := "/etc/eldim/privkey.pem";
     SwiftBackends := [];
     GCSBackends := [];
     S3Backends := (s3 : list (@s3_BackendConfig (installation roster)));
     ClientFile := "/etc/eldim/clients.yml";
     EncryptionKey := key;
     Encryption_AgeID := ageid;
     Encryption_AgeSSH := [];
     PrometheusEnabled := metrics;
     PrometheusAuthUser := user;
     PrometheusAuthPass := pass |}.

(** A configuration that passes every check before the client roster. *)
Definition conf (roster : list ClientConfig) : @Config (installation roster) :=
  configure 8443 [offsite] "" [recipient] false "" "" roster.

Definition alpha : ClientConfig :=
  {| ClientName := "alpha";
     IPv4Addr := ["192.0.2.1"];
     IPv6Addr := ["2001:db8::1"];
     Password := "" |}.

Definition beta : ClientConfig :=
  {| ClientName := "beta";
     IPv4Addr := [];
     IPv6Addr := [];
     Password := "correct-horse-battery-staple-0123456789" |}.

(** Metrics credentials of 24 letters and digits. *)
Definition scraper : string := "prometheusScraper0001abc".
Definition secret : string := "Zm9vYmFyYmF6cXV4MTIzNDU2".

(** A configuration that fails three checks: it has no backend, it sets
    the deprecated key and it has no recipient. *)
Definition broken : @Config (installation [alpha]) :=
  configure 8443 [] "0123456789abcdef" [] false "" "" [alpha].

(** An entry whose IPv4 list holds the IPv6 loopback address. *)
Definition loopback_in_v4 : ClientConfig :=
  {| ClientName := "gamma";
     IPv4Addr := ["::1"];
     IPv6Addr := [];
     Password := "" |}.

(** An entry that lists one address twice. *)
Definition twice : ClientConfig :=
  {| ClientName := "delta";
     IPv4Addr := ["192.0.2.7"; "192.0.2.7"];
     IPv6Addr := [];
     Password := "" |}.

(** An entry without a name. *)
Definition nameless : ClientConfig :=
  {| ClientName := "";
     IPv4Addr := ["198.51.100.4"];
     IPv6Addr := [];
     Password := "" |}.

(** The configuration file again, up to the paths, the memory ceiling
    and the backends. *)
Definition settings (chain key clients : string) (ram : Z)
           (swift gcs s3 : list BackendConfig)
           (roster : list ClientConfig) : @Config (installation roster) :=
  {| ListenPort := 8443;
     ServerTokens := false;
     MaxUploadRAM := ram;
     TLSChainPath := chain;
     TLSKeyPath := key;
     SwiftBackends :=
       (swift : list (@swift_BackendConfig (installation roster)));
     GCSBackends := (gcs : list (@gcs_BackendConfig (installation roster)));
     S3Backends := (s3 : list (@s3_BackendConfig (installation roster)));
     ClientFile := clients;
     EncryptionKey := "";
     Encryption_AgeID := [recipient];
     Encryption_AgeSSH := [];
     PrometheusEnabled := false;
     PrometheusAuthUser := "";
     PrometheusAuthPass := "" |}.

(** Backend definitions without endpoint, which do not validate. *)
Definition unreachable : BackendConfig :=
  {| BackendName := "unreachable"; Endpoint := "" |}.
Definition forgotten : BackendConfig :=
  {| BackendName := "forgotten"; Endpoint := "" |}.

(** An entry that takes the name of [alpha]. *)
Definition impostor : ClientConfig :=
  {| ClientName := "alpha";
     IPv4Addr := ["203.0.113.9"];
     IPv6Addr := [];
     Password := "" |}.

(** An installation with two client files, which decode to the two given
    rosters. *)
Definition open_either (path : string) : res error string :=
  if bool_decide (path ∈ "/etc/eldim/clients.d/a.yml"
                         :: "/etc/eldim/clients.d/b.yml" :: paths)
  then Ok path
  else Err ("open " +:+ path +:+ ": no such file or directory").

#[local] Instance two_files (a b : list ClientConfig) : Platform := {|
  swift_BackendConfig := BackendConfig;
  swift_Validate := BackendConfig_Validate;
  swift_Name := BackendName;
  gcs_BackendConfig := BackendConfig;
  gcs_Validate := BackendConfig_Validate;
  gcs_Name := BackendName;
  s3_BackendConfig := BackendConfig;
  s3_Validate := BackendConfig_Validate;
  s3_Name := BackendName;
  File := string;
  os_Open := open_either;
  File_Close := fun _ => Ok tt;
  ioutil_ReadFile := open_either;
  yaml_Unmarshal := fun content =>
    if bool_decide (content = "/etc/eldim/clients.d/a.yml")
    then Ok a else Ok b;
  age_ParseX25519Recipient := parseWithPrefix "age1";
  agessh_ParseRecipient := parseWithPrefix "ssh-ed25519 "
|}.

(** The configuration of that installation that reads the given client
    file. *)
Definition reading (clients : string) (a b : list ClientConfig)
  : @Config (two_files a b) :=
  {| ListenPort := 8443;
     ServerTokens := false;
     MaxUploadRAM := 100;
     TLSChainPath := "/etc/eldim/fullchain.pem";
     TLSKeyPath := "/etc/eldim/privkey.pem";
     SwiftBackends := [];
     GCSBackends := [];
     S3Backends := ([offsite] : list (@s3_BackendConfig (two_files a b)));
     ClientFile := clients;
     EncryptionKey := "";
     Encryption_AgeID := [recipient];
     Encryption_AgeSSH := [];
     PrometheusEnabled := false;
     PrometheusAuthUser := "";
     PrometheusAuthPass := "" |}.

(** An entry that lists an IPv4-mapped IPv6 literal among its IPv4
    addresses. *)
Definition mapped : ClientConfig :=
  {| ClientName := "epsilon";
     IPv4Addr := ["::ffff:192.0.2.33"];
     IPv6Addr := ["2001:db8::33"];
     Password := "" |}.

End example.

(** ** The specification's vocabulary *)

Module spec.
Import gostring config.

(** The text under which the duplicate check records an address. *)
Definition canonical (a : string) : string := net.String (net.ParseIP a).

(** The addresses of a client in the order the checks visit them. *)
Definition addresses (c : ClientConfig) : list string :=
  map canonical (IPv6Addr c ++ IPv4Addr c).

(** A client entry as the specification describes a valid one: a name,
    a password that is empty or of 32 to 128 bytes, one of password,
    IPv4 list and IPv6 list non-empty, and addresses that all parse. *)
Definition client_valid_as_specified (c : ClientConfig) : Prop :=
  ClientName c <> "" /\
  (Password c = "" \/ (32 <= len (Password c) <= 128)%nat) /\
  (Password c <> "" \/ IPv4Addr c <> [] \/ IPv6Addr c <> []) /\
  (forall a, a ∈ IPv6Addr c ++ IPv4Addr c -> net.ParseIP a <> []).

(** What the code asks in addition: the addresses of the IPv4 list print
    with a dot, those of the IPv6 list with a colon and without a dot. *)
Definition families_respected (c : ClientConfig) : Prop :=
  (forall a, a ∈ IPv4Addr c -> Contains (canonical a) "." = true) /\
  (forall a, a ∈ IPv6Addr c ->
     Contains (canonical a) ":" = true /\ Contains (canonical a) "." = false).

(** A string of ASCII letters and digits. *)
Definition alphanumeric (s : string) : Prop :=
  forall c, c ∈ list_ascii_of_string s ->
    97 <= byteOf c <= 122 \/ 65 <= byteOf c <= 90 \/ 48 <= byteOf c <= 57.

(** A string of the pattern [[A-Za-z0-9]{20,128}]. *)
Definition matches_auth_pattern (s : string) : Prop :=
  (20 <= len s <= 128)%nat /\ alphanumeric s.

(** The name the duplicate check records for an entry, and the
    password it records, if any. *)
Definition name_of (c : ClientConfig) : string := fst (ClientConfig_Name c).
Definition password_of (c : ClientConfig) : list string :=
  filter (fun p => p <> "") [Password c].

(** The non-empty passwords of a roster, in order. *)
Definition passwords (roster : list ClientConfig) : list string :=
  filter (fun p => p <> "") (map Password roster).

(** All the addresses of a roster: the concatenation of every entry's
    IPv6 and IPv4 lists, in the form the duplicate check records. *)
Definition all_addresses (roster : list ClientConfig) : list string :=
  concat (map addresses roster).

(** Uniqueness across the roster as the specification words it: two
    different entries never share a name, a non-empty password, or an
    address. *)
Definition roster_unique_as_specified (roster : list ClientConfig) : Prop :=
  forall i j ci cj,
    i <> j -> roster !! i = Some ci -> roster !! j = Some cj ->
    ClientName ci <> ClientName cj /\
    (Password ci <> "" -> Password ci <> Password cj) /\
    (forall a, a ∈ addresses ci -> a ∉ addresses cj).

(** Uniqueness as the code checks it: no name, no non-empty password
    and no address occurs twice in the roster, be it in two entries or
    in one. *)
Definition roster_unique (roster : list ClientConfig) : Prop :=
  NoDup (map ClientName roster) /\
  NoDup (passwords roster) /\
  NoDup (all_addresses roster).

(** The keys a [map[string]bool] holds [true] for are those of [l]. *)
Definition holds (m : gmap string bool) (l : list string) : Prop :=
  forall k, mapGet m k = true <-> k ∈ l.

(** The checks of [Config.Validate] as the specification lists them,
    each made of the statements of the function that belong to it. *)
Section Checks.
Context `{Platform}.

Definition check : Type := Config -> res ConfigError unit.

(** listening port range *)
Definition checkListenPort : check := fun conf =>
  failIf (ListenPort conf <? 0) ErrPortNegative ;;
  failIf (65535 <? ListenPort conf) ErrPortTooLarge.

(** presence and openability of the TLS chain and key files *)
Definition checkTLSFiles : check := fun conf =>
  failIf (bool_decide (TLSChainPath conf = "")) ErrTLSChainRequired ;;
  f <- wrap ErrTLSChainOpen (os_Open (TLSChainPath conf)) ;;
  wrap ErrTLSChainClose (File_Close f) ;;
  failIf (bool_decide (TLSKeyPath conf = "")) ErrTLSKeyRequired ;;
  f <- wrap ErrTLSKeyOpen (os_Open (TLSKeyPath conf)) ;;
  wrap ErrTLSKeyClose (File_Close f).

(** each backend's own validation *)
Definition checkEachBackend : check := fun conf =>
  forEach (fun b => wrap (ErrSwiftBackend (swift_Name b)) (swift_Validate b))
          (SwiftBackends conf) ;;
  forEach (fun b => wrap (ErrGCSBackend (gcs_Name b)) (gcs_Validate b))
          (GCSBackends conf) ;;
  forEach (fun b => wrap (ErrS3Backend (s3_Name b)) (s3_Validate b))
          (S3Backends conf).

(** at least one backend present *)
Definition checkSomeBackend : check := fun conf =>
  failIf (length (SwiftBackends conf) + length (GCSBackends conf)
          + length (S3Backends conf) =? 0)%nat ErrNoBackend.

(** positive upload-memory ceiling *)
Definition checkMaxUploadRAM : check := fun conf =>
  failIf (MaxUploadRAM conf <=? 0) ErrMaxUploadRAM.

(** absence of the deprecated single-key encryption field *)
Definition checkNoEncryptionKey : check := fun conf =>
  failIf (negb (bool_decide (EncryptionKey conf = "")))
         ErrEncryptionKeyDeprecated.

(** at least one recipient configured and each recipient parseable *)
Definition checkRecipients : check := fun conf =>
  failIf (length (Encryption_AgeID conf)
          + length (Encryption_AgeSSH conf) =? 0)%nat ErrNoAgeKey ;;
  forEach (fun r => wrap (ErrAgeID r) (age_ParseX25519Recipient r))
          (Encryption_AgeID conf) ;;
  forEach (fun r => wrap (ErrAgeSSH r) (agessh_ParseRecipient r))
          (Encryption_AgeSSH conf).

(** metrics Basic-Auth credentials, if metrics are enabled *)
Definition checkPrometheus : check := fun conf =>
  if PrometheusEnabled conf then
    failIf (bool_decide (PrometheusAuthUser conf = ""))
           ErrPrometheusUserMissing ;;
    failIf (negb (matchAuth (PrometheusAuthUser conf)))
           ErrPrometheusUserPattern ;;
    failIf (bool_decide (PrometheusAuthPass conf = ""))
           ErrPrometheusPassMissing ;;
    failIf (negb (matchAuth (PrometheusAuthPass conf)))
           ErrPrometheusPassPattern
  else Ok tt.

(** the client roster: the file exists, parses, is non-empty, every
    entry validates, and the entries are unique across the roster *)
Definition checkClients : check := fun conf =>
  failIf (bool_decide (ClientFile conf = "")) ErrNoClientFile ;;
  fc <- wrap ErrClientFileOpen (ioutil_ReadFile (ClientFile conf)) ;;
  clients <- wrap ErrClientFileYAML (yaml_Unmarshal fc) ;;
  failIf (length clients =? 0)%nat ErrNoClients ;;
  forEachI (fun i c =>
              match ClientConfig_Validate c with
              | Ok _ => Ok tt
              | Err err =>
                  Err (ErrClientInvalid (fst (ClientConfig_Name c))
                                        (i + 1) err)
              end) 0 clients ;;
  dupLoop 0 clients (Seen ∅ ∅ ∅).

(** The documented order of the checks. *)
Definition documented_order : list check :=
  [checkListenPort; checkTLSFiles; checkEachBackend; checkSomeBackend;
   checkMaxUploadRAM; checkNoEncryptionKey; checkRecipients;
   checkPrometheus; checkClients].

(** First error wins: run the checks in order, stop at the first
    that fails. *)
Fixpoint firstError (checks : list check) (conf : Config)
  : res ConfigError unit :=
  match checks with
  | [] => Ok tt
  | chk :: rest => chk conf ;; firstError rest conf
  end.

(** [conf] passes every check of the list. *)
Definition passes (conf : Config) (checks : list check) : Prop :=
  Forall (fun chk => chk conf = Ok tt) checks.

(** [conf] with other metrics credentials, all else equal. *)
Definition with_credentials (user pass : string) (conf : Config) : Config :=
  {| ListenPort := ListenPort conf;
     ServerTokens := ServerTokens conf;
     MaxUploadRAM := MaxUploadRAM conf;
     TLSChainPath := TLSChainPath conf;
     TLSKeyPath := TLSKeyPath conf;
     SwiftBackends := SwiftBackends conf;
     GCSBackends := GCSBackends conf;
     S3Backends := S3Backends conf;
     ClientFile := ClientFile conf;
     EncryptionKey := EncryptionKey conf;
     Encryption_AgeID := Encryption_AgeID conf;
     Encryption_AgeSSH := Encryption_AgeSSH conf;
     PrometheusEnabled := PrometheusEnabled conf;
     PrometheusAuthUser := user;
     PrometheusAuthPass := pass |}.

(** The checks that come before a given one. *)
Definition before_backend_count : list check :=
  [checkListenPort; checkTLSFiles; checkEachBackend].
Definition before_encryption_key : list check :=
  before_backend_count ++ [checkSomeBackend; checkMaxUploadRAM].
Definition before_recipients : list check :=
  before_encryption_key ++ [checkNoEncryptionKey].
Definition before_prometheus : list check :=
  before_recipients ++ [checkRecipients].
Definition before_clients : list check :=
  before_prometheus ++ [checkPrometheus].

(** The second half of the roster property as the specification
    words it: a roster whose entries share no name, no non-empty
    password and no address validates, all else being valid. *)
Definition distinct_roster_validates (conf : Config)
           (roster : list ClientConfig) : Prop :=
  passes conf before_clients ->
  ClientFile conf <> "" ->
  (exists fc, ioutil_ReadFile (ClientFile conf) = Ok fc
              /\ yaml_Unmarshal fc = Ok roster) ->
  roster <> [] ->
  Forall (fun c => ClientConfig_Validate c = Ok tt) roster ->
  roster_unique_as_specified roster ->
  Config_Validate conf = Ok tt.

End Checks.

(** The position in the documented order of the check an error
    belongs to. *)
Definition stage_of (e : ConfigError) : nat :=
  match e with
  | ErrPortNegative | ErrPortTooLarge => 0
  | ErrTLSChainRequired | ErrTLSChainOpen _ | ErrTLSChainClose _
  | ErrTLSKeyRequired | ErrTLSKeyOpen _ | ErrTLSKeyClose _ => 1
  | ErrSwiftBackend _ _ | ErrGCSBackend _ _ | ErrS3Backend _ _ => 2
  | ErrNoBackend => 3
  | ErrMaxUploadRAM => 4
  | ErrEncryptionKeyDeprecated => 5
  | ErrNoAgeKey | ErrAgeID _ _ | ErrAgeSSH _ _ => 6
  | ErrPrometheusUserMissing | ErrPrometheusUserPattern
  | ErrPrometheusPassMissing | ErrPrometheusPassPattern => 7
  | ErrNoClientFile | ErrClientFileOpen _ | ErrClientFileYAML _
  | ErrNoClients | ErrClientInvalid _ _ _ | ErrClientDupName _ _
  | ErrClientDupPassword _ _ | ErrClientDupIP _ _ _ => 8
  end%nat.

(** The characters of the text of an IPv6 address. *)
Definition groupChars : list ascii :=
  list_ascii_of_string "0123456789abcdef:".

End spec.

(** * Properties *)

Import gostring config spec.

(** ** [net.ParseIP] and [net.IP.String] on examples *)

Example ParseIP_v4 :
  net.ParseIP "192.0.2.1"
  = [0; 0; 0; 0; 0; 0; 0; 0; 0; 0; 255; 255; 192; 0; 2; 1].
Proof. reflexivity. Qed.

Example ParseIP_v6 :
  net.ParseIP "2001:db8::1"
  = [32; 1; 13; 184; 0; 0; 0; 0; 0; 0; 0; 0; 0; 0; 0; 1].
Proof. reflexivity. Qed.

Example ParseIP_rejects :
  map net.ParseIP ["192.0.2"; "192.0.2.256"; "2001:db8::1::2"; "fe80::1%eth0";
                   "localhost"; ""]
  = [[]; []; []; []; []; []].
Proof. reflexivity. Qed.

Example String_forms :
  map canonical ["192.0.2.1"; "::ffff:192.0.2.1"; "2001:DB8:0:0:0:0:0:1";
                 "::1"; "0:0:1:0:0:0:0:1"; "localhost"]
  = ["192.0.2.1"; "192.0.2.1"; "2001:db8::1"; "::1"; "0:0:1::1"; "<nil>"].
Proof. reflexivity. Qed.

(** ** Sequencing, early return and loops *)

Section Sequencing.
Context {E A B : Type}.

Lemma bind_Ok (m : res E A) (k : A -> res E B) (b : B) :
  bind m k = Ok b <-> exists a, m = Ok a /\ k a = Ok b.
Proof.
  destruct m as [a|e]; simpl.
  - split; [eauto | intros (a' & [= <-] & Hk); exact Hk].
  - split; [discriminate | intros (a' & [=] & _)].
Qed.

Lemma bind_Err (m : res E A) (k : A -> res E B) (e : E) :
  bind m k = Err e <-> m = Err e \/ exists a, m = Ok a /\ k a = Err e.
Proof.
  destruct m as [a|e']; simpl.
  - split; [eauto | intros [[=] | (a' & [= <-] & Hk)]; exact Hk].
  - split; [intros [= ->]; auto | intros [[= ->] | (a' & [=] & _)]; reflexivity].
Qed.


Lemma failIf_Ok (b : bool) (e : E) : failIf b e = Ok tt <-> b = false.
Proof. destruct b; simpl; split; congruence. Qed.

Lemma failIf_Err (b : bool) (e e' : E) :
  failIf b e = Err e' <-> b = true /\ e' = e.
Proof.
  destruct b; simpl; split; try (intros [= ->]; auto); try discriminate.
  - intros [_ ->]; reflexivity.
  - intros [[=] _].
Qed.

End Sequencing.

Section Loops.
Context {E A : Type}.

Lemma seq_Ok {B} (m : res E unit) (k : res E B) (b : B) :
  (m ;; k) = Ok b <-> m = Ok tt /\ k = Ok b.
Proof.
  rewrite bind_Ok. split.
  - intros ([] & Hm & Hk); auto.
  - intros [Hm Hk]; exists tt; auto.
Qed.

Lemma seq_Err {B} (m : res E unit) (k : res E B) (e : E) :
  (m ;; k) = Err e <-> m = Err e \/ (m = Ok tt /\ k = Err e).
Proof.
  rewrite bind_Err. split.
  - intros [Hm | ([] & Hm & Hk)]; auto.
  - intros [Hm | [Hm Hk]]; [auto | right; exists tt; auto].
Qed.

Lemma forEach_Ok (body : A -> res E unit) (l : list A) :
  forEach body l = Ok tt <-> Forall (fun x => body x = Ok tt) l.
Proof.
  induction l as [|x l IH]; cbn [forEach].
  - split; [constructor | reflexivity].
  - rewrite bind_Ok, Forall_cons, <- IH. split.
    + intros ([] & Hx & Hl); auto.
    + intros [Hx Hl]; exists tt; auto.
Qed.

Lemma forEach_Err (body : A -> res E unit) (l : list A) (e : E) :
  forEach body l = Err e -> exists x, x ∈ l /\ body x = Err e.
Proof.
  induction l as [|x l IH]; cbn [forEach]; [discriminate|].
  rewrite bind_Err. intros [Hx | ([] & _ & Hl)].
  - exists x; split; [left | exact Hx].
  - destruct (IH Hl) as (y & Hy & He). exists y; split; [right; exact Hy | exact He].
Qed.


Lemma forEachI_Ok (body : nat -> A -> res E unit) (i : nat) (l : list A) :
  forEachI body i l = Ok tt <->
  forall k x, l !! k = Some x -> body (i + k)%nat x = Ok tt.
Proof.
  revert i; induction l as [|x l IH]; intros i; cbn [forEachI].
  - split; [intros _ k y; rewrite lookup_nil; discriminate | reflexivity].
  - rewrite bind_Ok. split.
    + intros ([] & Hx & Hl) [|k] y; cbn [lookup list_lookup].
      * intros [= <-]. rewrite Nat.add_0_r. exact Hx.
      * intros Hk. rewrite Nat.add_succ_r. apply (proj1 (IH (S i)) Hl k y Hk).
    + intros Hall. exists tt; split.
      * specialize (Hall O x eq_refl). rewrite Nat.add_0_r in Hall. exact Hall.
      * apply IH. intros k y Hk. specialize (Hall (S k) y Hk).
        rewrite Nat.add_succ_r in Hall. exact Hall.
Qed.

Lemma forEachI_Err (body : nat -> A -> res E unit) (i : nat) (l : list A)
      (e : E) :
  forEachI body i l = Err e ->
  exists k x, l !! k = Some x /\ body (i + k)%nat x = Err e.
Proof.
  revert i; induction l as [|x l IH]; intros i; cbn [forEachI];
    [discriminate|].
  rewrite seq_Err. intros [Hx | [_ Hl]].
  - exists O, x. rewrite Nat.add_0_r. auto.
  - destruct (IH _ Hl) as (k & y & Hk & Hy).
    exists (S k), y. rewrite Nat.add_succ_r. auto.
Qed.

End Loops.

(** ** A single client entry *)

Lemma isNil_false (ip : net.IP) : isNil ip = false <-> ip <> [].
Proof. destruct ip; simpl; split; congruence. Qed.

Lemma length_zero_iff {A} (l : list A) : (length l =? 0)%nat = true <-> l = [].
Proof. destruct l; simpl; split; congruence. Qed.

Lemma len_zero_iff (s : string) : len s = 0%nat <-> s = "".
Proof. destruct s; simpl; split; congruence. Qed.

(** The outcome of [ClientConfig.Validate], condition by condition. *)
Lemma ClientConfig_Validate_Ok (c : ClientConfig) :
  ClientConfig_Validate c = Ok tt <->
  ClientName c <> "" /\
  Forall (fun a => net.ParseIP a <> []) (IPv6Addr c ++ IPv4Addr c) /\
  Forall (fun a => Contains (canonical a) "." = true) (IPv4Addr c) /\
  Forall (fun a => Contains (canonical a) ":" = true
                   /\ Contains (canonical a) "." = false) (IPv6Addr c) /\
  ~ (Password c = "" /\ IPv4Addr c = [] /\ IPv6Addr c = []) /\
  ~ ((len (Password c) < 32)%nat /\ Password c <> "") /\
  (len (Password c) <= 128)%nat.
Proof.
  unfold ClientConfig_Validate, ClientConfig_IPv4, ClientConfig_IPv6, canonical.
  rewrite <- map_app, !seq_Ok, !failIf_Ok, !forEach_Ok, !Forall_map.
  rewrite !length_map.
  assert (Hnil : forall a, failIf (isNil (net.ParseIP a)) ErrClientInvalidIP
                           = Ok tt <-> net.ParseIP a <> []).
  { intros a. rewrite failIf_Ok. apply isNil_false. }
  assert (Hv4 : forall a,
             failIf (negb (Contains (net.String (net.ParseIP a)) "."))
                    (ErrClientNonIPv4 (net.String (net.ParseIP a))) = Ok tt
             <-> Contains (net.String (net.ParseIP a)) "." = true).
  { intros a. rewrite failIf_Ok, negb_false_iff. reflexivity. }
  assert (Hv6 : forall a,
             failIf (negb (Contains (net.String (net.ParseIP a)) ":")
                     || Contains (net.String (net.ParseIP a)) ".")
                    (ErrClientNonIPv6 (net.String (net.ParseIP a))) = Ok tt
             <-> Contains (net.String (net.ParseIP a)) ":" = true
                 /\ Contains (net.String (net.ParseIP a)) "." = false).
  { intros a. rewrite failIf_Ok, orb_false_iff, negb_false_iff. reflexivity. }
  rewrite (Forall_iff _ _ _ Hnil), (Forall_iff _ _ _ Hv4), (Forall_iff _ _ _ Hv6).
  rewrite bool_decide_eq_false.
  rewrite !andb_false_iff, negb_false_iff, !bool_decide_eq_false,
    bool_decide_eq_true, Nat.ltb_ge, Nat.ltb_ge.
  assert (H4 : (length (IPv4Addr c) =? 0)%nat = false <-> IPv4Addr c <> []).
  { rewrite <- length_zero_iff. destruct (length (IPv4Addr c) =? 0)%nat; split; congruence. }
  assert (H6 : (length (IPv6Addr c) =? 0)%nat = false <-> IPv6Addr c <> []).
  { rewrite <- length_zero_iff. destruct (length (IPv6Addr c) =? 0)%nat; split; congruence. }
  rewrite H4, H6.
  destruct (decide (Password c = "")) as [Hp|Hp];
    destruct (decide (IPv4Addr c = [])) as [H4'|H4'];
    destruct (decide (IPv6Addr c = [])) as [H6'|H6'];
    destruct (Nat.lt_ge_cases (len (Password c)) 32);
    intuition (try congruence; try lia).
Qed.

Ltac other_error H :=
  first [ apply forEach_Err in H;
          let x := fresh "x" in
          let Hx := fresh "Hx" in
          destruct H as (x & _ & Hx);
          apply failIf_Err in Hx; destruct Hx as [_ Hx]; discriminate
        | apply failIf_Err in H; destruct H as [_ H]; discriminate ].

(** Only the first check returns the error for a missing name. *)
Lemma ClientConfig_Validate_NoName (c : ClientConfig) :
  ClientConfig_Validate c = Err ErrClientNoName <-> ClientName c = "".
Proof.
  unfold ClientConfig_Validate. split.
  - intros H. apply seq_Err in H. destruct H as [H | [_ H]].
    + apply failIf_Err in H. destruct H as [Hb _].
      apply bool_decide_eq_true in Hb. exact Hb.
    + exfalso.
      repeat (apply seq_Err in H; destruct H as [H | [_ H]];
              [other_error H|]).
      discriminate.
  - intros ->. reflexivity.
Qed.

(** C1 (amended): [ClientConfig.Validate] succeeds exactly when the name is
    non-empty, the password is empty or has 32 to 128 bytes, one of
    password, IPv4 list and IPv6 list is non-empty, every listed address
    parses, and moreover every address of the IPv4 list prints with a dot
    and every address of the IPv6 list prints with a colon and no dot. *)
Theorem ClientConfig_Validate_iff (c : ClientConfig) :
  ClientConfig_Validate c = Ok tt <->
  client_valid_as_specified c /\ families_respected c.
Proof.
  rewrite ClientConfig_Validate_Ok.
  unfold client_valid_as_specified, families_respected.
  rewrite !Forall_forall.
  pose proof (len_zero_iff (Password c)) as Hlen.
  destruct (decide (IPv4Addr c = [])) as [H4|H4];
    destruct (decide (IPv6Addr c = [])) as [H6|H6];
    destruct (decide (Password c = "")) as [Hp|Hp].
  all: try (assert (len (Password c) = 0%nat) by (apply Hlen; exact Hp);
            intuition (try congruence; try lia); fail).
  all: assert (len (Password c) <> 0%nat) by (rewrite Hlen; exact Hp);
    destruct (Nat.lt_ge_cases (len (Password c)) 32);
    intuition (try congruence; try lia).
Qed.

(** C1 as it is worded fails on an entry whose IPv4 list holds [::1]: every
    worded condition holds, and validation returns the non-IPv4 error. *)
Lemma ClientConfig_Validate_not_as_specified :
  ~ (ClientConfig_Validate example.loopback_in_v4 = Ok tt
     <-> client_valid_as_specified example.loopback_in_v4).
Proof.
  intros [_ Hback].
  assert (Hrun : ClientConfig_Validate example.loopback_in_v4
                 = Err (ErrClientNonIPv4 "::1")) by (vm_compute; reflexivity).
  rewrite Hrun in Hback.
  enough (client_valid_as_specified example.loopback_in_v4) as Hspec
      by (specialize (Hback Hspec); discriminate).
  unfold client_valid_as_specified; simpl.
  split; [discriminate|]. split; [left; reflexivity|].
  split; [right; left; discriminate|].
  intros a Ha. apply list_elem_of_singleton in Ha. subst a.
  vm_compute. discriminate.
Qed.

(** C9: [ClientConfig.Name] returns a non-empty string and is not a pure
    accessor: on an empty name it stores "Unnamed Client" in [ClientName]
    and changes no other field, on a non-empty name it changes nothing; the
    entry it leaves behind no longer fails the non-empty-name check of
    [ClientConfig.Validate], which the entry with the empty name did. *)
Theorem ClientConfig_Name_effect (c : ClientConfig) :
  let name := fst (ClientConfig_Name c) in
  let c' := snd (ClientConfig_Name c) in
  name <> "" /\ name = ClientName c' /\
  IPv4Addr c' = IPv4Addr c /\ IPv6Addr c' = IPv6Addr c /\
  Password c' = Password c /\
  (ClientName c = "" ->
     name = "Unnamed Client" /\
     ClientConfig_Validate c = Err ErrClientNoName) /\
  (ClientName c <> "" -> name = ClientName c /\ c' = c) /\
  ClientConfig_Validate c' <> Err ErrClientNoName.
Proof.
  cbn zeta. unfold ClientConfig_Name.
  destruct (decide (ClientName c = "")) as [Hname|Hname].
  - rewrite (bool_decide_eq_true_2 _ Hname); simpl.
    rewrite !ClientConfig_Validate_NoName; simpl.
    repeat split; try discriminate; try congruence.
  - rewrite (bool_decide_eq_false_2 _ Hname); simpl.
    rewrite !ClientConfig_Validate_NoName; simpl.
    repeat split; try congruence.
Qed.

(** On the nameless entry the call stores the default name. *)
Lemma ClientConfig_Name_effect_witness :
  fst (ClientConfig_Name example.nameless) = "Unnamed Client"
  /\ ClientConfig_Validate example.nameless = Err ErrClientNoName.
Proof.
  apply (ClientConfig_Name_effect example.nameless). reflexivity.
Defined.

(** ** The whole configuration *)

Section ConfigProperties.
Context `{Platform}.

Implicit Types (conf : Config) (e : ConfigError) (checks : list check).

(** [Config.Validate] runs the documented checks in the documented
    order and returns what the first failing one returns. *)
Lemma Config_Validate_staged conf :
  Config_Validate conf = firstError documented_order conf.
Proof.
  unfold Config_Validate, documented_order, firstError, checkListenPort,
    checkTLSFiles, checkEachBackend, checkSomeBackend, checkMaxUploadRAM,
    checkNoEncryptionKey, checkRecipients, checkPrometheus, checkClients.
  repeat (try reflexivity;
          match goal with
          | |- bind (if ?b then _ else _) _ = _ => destruct b; cbn [bind]
          | |- bind ?m _ = _ => destruct m as [?|?]; cbn [bind]
          end).
  all: destruct (dupLoop _ _ _) as [[]|?]; reflexivity.
Qed.


Lemma firstError_Ok checks conf :
  firstError checks conf = Ok tt <-> passes conf checks.
Proof.
  unfold passes.
  induction checks as [|chk checks IH]; cbn [firstError].
  - split; [constructor | reflexivity].
  - rewrite seq_Ok, Forall_cons, IH. reflexivity.
Qed.

(** The error returned is that of the earliest failing check. *)
Lemma firstError_Err checks conf e :
  firstError checks conf = Err e <->
  exists k chk, checks !! k = Some chk /\ chk conf = Err e
                /\ passes conf (take k checks).
Proof.
  induction checks as [|chk checks IH]; cbn [firstError].
  - split; [discriminate | intros (k & c & Hk & _)].
    rewrite lookup_nil in Hk. discriminate.
  - rewrite seq_Err, IH. split.
    + intros [Hchk | [Hchk (k & c & Hk & Hc & Hpass)]].
      * exists O, chk. repeat split; [exact Hchk | constructor].
      * exists (S k), c. repeat split; [exact Hk | exact Hc |].
        constructor; assumption.
    + intros ([|k] & c & Hk & Hc & Hpass).
      * injection Hk as <-. left; exact Hc.
      * right. apply Forall_cons in Hpass. destruct Hpass as [Hchk Hpass].
        split; [exact Hchk|]. exists k, c. auto.
Qed.

Lemma wrap_Ok {A} (mk : error -> ConfigError) (m : res error A) (a : A) :
  wrap mk m = Ok a <-> m = Ok a.
Proof. destruct m; simpl; split; congruence. Qed.

Lemma wrap_Err {A} (mk : error -> ConfigError) (m : res error A) e :
  wrap mk m = Err e <-> exists err, m = Err err /\ e = mk err.
Proof.
  destruct m as [a|err]; simpl; split.
  - discriminate.
  - intros (err & [=] & _).
  - intros [= <-]. eauto.
  - intros (err' & [= <-] & ->). reflexivity.
Qed.

(** *** Every error names its check *)

Lemma dupIPs_stage c i ips m e :
  dupIPs c i ips m = Err e -> stage_of e = 8%nat.
Proof.
  revert m; induction ips as [|ip ips IH]; intros m; cbn [dupIPs].
  - discriminate.
  - destruct (mapGet m (net.String ip)); [intros [= <-]; reflexivity|].
    apply IH.
Qed.

Lemma dupCheck_stage i c st e :
  dupCheck i c st = Err e -> stage_of e = 8%nat.
Proof.
  unfold dupCheck.
  destruct (ClientConfig_Name c) as [name c1].
  destruct (mapGet (nameSet st) name).
  - destruct (ClientConfig_Name c1). intros [= <-]; reflexivity.
  - destruct (ClientConfig_Name c1) as [name2 c2].
    rewrite bind_Err. intros [Hpass | (passes & _ & Hips)].
    + destruct (negb _); [|discriminate].
      destruct (mapGet _ _); [|discriminate].
      destruct (ClientConfig_Name c2). injection Hpass as <-. reflexivity.
    + apply bind_Err in Hips. destruct Hips as [Hips | (ips & _ & [=])].
      eapply dupIPs_stage; exact Hips.
Qed.

Lemma dupLoop_stage i clients st e :
  dupLoop i clients st = Err e -> stage_of e = 8%nat.
Proof.
  revert i st; induction clients as [|c clients IH]; intros i st;
    cbn [dupLoop]; [discriminate|].
  rewrite bind_Err. intros [Hc | (st' & _ & Hl)].
  - eapply dupCheck_stage; exact Hc.
  - eapply IH; exact Hl.
Qed.

Ltac classify :=
  repeat match goal with
    | H : Ok _ = Err _ |- _ => discriminate H
    | H : bind _ _ = Err _ |- _ =>
        apply bind_Err in H; destruct H as [H | (? & _ & H)]
    | H : failIf _ _ = Err _ |- _ =>
        apply failIf_Err in H; destruct H as [_ ->]; reflexivity
    | H : wrap _ _ = Err _ |- _ =>
        apply wrap_Err in H; destruct H as (? & _ & ->); reflexivity
    | H : forEach _ _ = Err _ |- _ =>
        apply forEach_Err in H; destruct H as (? & _ & H)
    | H : forEachI _ _ _ = Err _ |- _ =>
        apply forEachI_Err in H; destruct H as (? & ? & _ & H)
    | H : dupLoop _ _ _ = Err _ |- _ =>
        apply dupLoop_stage in H; exact H
    | H : (if ?b then _ else _) = Err _ |- _ => destruct b
    | H : match ?m with Ok _ => _ | Err _ => _ end = Err _ |- _ =>
        destruct m; [discriminate H | injection H as <-; reflexivity]
    end.

(** An error of the [k]-th check is an error of stage [k]. *)
Lemma error_stage k chk conf e :
  documented_order !! k = Some chk -> chk conf = Err e -> stage_of e = k.
Proof.
  intros Hk He. unfold documented_order in Hk.
  do 9 (destruct k as [|k];
        [ injection Hk as <-;
          unfold checkListenPort, checkTLSFiles, checkEachBackend,
            checkSomeBackend, checkMaxUploadRAM, checkNoEncryptionKey,
            checkRecipients, checkPrometheus, checkClients in He;
          classify | cbn [lookup list_lookup] in Hk ]).
  discriminate Hk.
Qed.

(** *** First error wins *)

Lemma Config_Validate_Ok conf :
  Config_Validate conf = Ok tt <-> passes conf documented_order.
Proof. rewrite Config_Validate_staged. apply firstError_Ok. Qed.

Lemma Config_Validate_fails_at k chk conf e :
  documented_order !! k = Some chk -> chk conf = Err e ->
  passes conf (take k documented_order) ->
  Config_Validate conf = Err e.
Proof.
  intros Hk He Hpass. rewrite Config_Validate_staged.
  apply firstError_Err. exists k, chk. auto.
Qed.

Lemma Config_Validate_Err_stage conf e :
  Config_Validate conf = Err e ->
  exists chk, documented_order !! stage_of e = Some chk /\ chk conf = Err e
              /\ passes conf (take (stage_of e) documented_order).
Proof.
  rewrite Config_Validate_staged, firstError_Err.
  intros (k & chk & Hk & He & Hpass).
  rewrite (error_stage k chk conf e Hk He). exists chk. auto.
Qed.

Lemma passes_lookup conf checks k chk :
  passes conf checks -> checks !! k = Some chk -> chk conf = Ok tt.
Proof.
  unfold passes. rewrite Forall_lookup. intros Hall Hk. exact (Hall k chk Hk).
Qed.

(** A failing check makes validation fail, with an error of that check
    or of an earlier one. *)
Lemma Config_Validate_fails_if k chk conf e :
  documented_order !! k = Some chk -> chk conf = Err e ->
  exists e', Config_Validate conf = Err e' /\ (stage_of e' <= k)%nat.
Proof.
  intros Hk He.
  destruct (Config_Validate conf) as [[]|e'] eqn:Hv.
  - apply Config_Validate_Ok in Hv.
    rewrite (passes_lookup _ _ _ _ Hv Hk) in He. discriminate.
  - exists e'. split; [reflexivity|].
    destruct (Config_Validate_Err_stage _ _ Hv) as (chk' & Hk' & _ & Hpass).
    destruct (Nat.le_gt_cases (stage_of e') k) as [Hle|Hgt]; [exact Hle|].
    assert (Hin : take (stage_of e') documented_order !! k = Some chk)
      by (rewrite lookup_take_lt; [exact Hk | exact Hgt]).
    rewrite (passes_lookup _ _ _ _ Hpass Hin) in He. discriminate.
Qed.

(** C3: [Config.Validate] is first-error-wins.  It is the documented
    checks run in the documented order (listening port, TLS files, each
    backend, at least one backend, upload-memory ceiling, deprecated
    encryption key, recipients, metrics credentials, client roster); it
    succeeds exactly when all of them pass; when it fails, the one error
    it returns is the error of the first check that fails, so that no
    failing check comes before the check the error belongs to. *)
Theorem Config_Validate_first_error_wins conf :
  Config_Validate conf = firstError documented_order conf /\
  (Config_Validate conf = Ok tt <-> passes conf documented_order) /\
  (forall k chk e,
      documented_order !! k = Some chk -> chk conf = Err e ->
      passes conf (take k documented_order) ->
      Config_Validate conf = Err e) /\
  (forall e,
      Config_Validate conf = Err e ->
      (exists chk, documented_order !! stage_of e = Some chk
                   /\ chk conf = Err e) /\
      (forall j chk' e',
          documented_order !! j = Some chk' -> chk' conf = Err e' ->
          (stage_of e <= j)%nat)).
Proof.
  split; [apply Config_Validate_staged|].
  split; [apply Config_Validate_Ok|].
  split; [intros k chk e; apply Config_Validate_fails_at|].
  intros e Hv. split.
  - destruct (Config_Validate_Err_stage _ _ Hv) as (chk & Hk & He & _).
    exists chk. auto.
  - intros j chk' e' Hj He'.
    destruct (Config_Validate_fails_if _ _ _ _ Hj He') as (e'' & Hv' & Hle).
    rewrite Hv in Hv'. injection Hv' as <-. exact Hle.
Qed.

(** *** The listening port *)

Lemma checkListenPort_Ok conf :
  checkListenPort conf = Ok tt <-> 0 <= ListenPort conf <= 65535.
Proof.
  unfold checkListenPort.
  rewrite seq_Ok, !failIf_Ok, Z.ltb_ge, Z.ltb_ge. lia.
Qed.

(** C8: the listening port is accepted exactly when it lies in
    [0, 65535].  A negative port and a port above 65535 make validation
    fail with the error of the port check; a port in the range passes
    the port check, validation then never returns a port error, and a
    configuration that validates has its port in the range. *)
Theorem ListenPort_range conf :
  (ListenPort conf < 0 -> Config_Validate conf = Err ErrPortNegative) /\
  (65535 < ListenPort conf -> Config_Validate conf = Err ErrPortTooLarge) /\
  (0 <= ListenPort conf <= 65535 ->
     checkListenPort conf = Ok tt
     /\ Config_Validate conf <> Err ErrPortNegative
     /\ Config_Validate conf <> Err ErrPortTooLarge) /\
  (Config_Validate conf = Ok tt -> 0 <= ListenPort conf <= 65535).
Proof.
  assert (Hin : 0 <= ListenPort conf <= 65535 ->
                forall e, Config_Validate conf = Err e -> stage_of e <> 0%nat).
  { intros Hrange e Hv Hstage.
    apply Config_Validate_Err_stage in Hv.
    destruct Hv as (chk & Hk & He & _).
    rewrite Hstage in Hk. injection Hk as <-.
    apply checkListenPort_Ok in Hrange. congruence. }
  split; [|split; [|split]].
  - intros Hneg. unfold Config_Validate.
    apply Z.ltb_lt in Hneg. rewrite Hneg. reflexivity.
  - intros Hbig. unfold Config_Validate.
    assert (Hpos : (ListenPort conf <? 0) = false) by (apply Z.ltb_ge; lia).
    apply Z.ltb_lt in Hbig. rewrite Hpos, Hbig. reflexivity.
  - intros Hrange. split; [apply checkListenPort_Ok; exact Hrange|].
    split; intros Hv; exact (Hin Hrange _ Hv eq_refl).
  - intros Hv. apply checkListenPort_Ok.
    apply Config_Validate_Ok in Hv.
    exact (passes_lookup _ _ O _ Hv eq_refl).
Qed.

(** *** Backends *)

(** C4: a configuration without any backend, of any of the three
    protocols, fails validation; when the port and TLS checks pass the
    error is the one that says at least one backend is needed. *)
Theorem no_backend_is_an_error conf :
  SwiftBackends conf = [] -> GCSBackends conf = [] -> S3Backends conf = [] ->
  (exists e, Config_Validate conf = Err e /\ (stage_of e <= 3)%nat) /\
  (passes conf [checkListenPort; checkTLSFiles] ->
     Config_Validate conf = Err ErrNoBackend) /\
  ConfigError_Error ErrNoBackend
  = "eldim needs at least one backend to operate, 0 found".
Proof.
  intros Hswift Hgcs Hs3.
  assert (Hcount : checkSomeBackend conf = Err ErrNoBackend)
    by (unfold checkSomeBackend; rewrite Hswift, Hgcs, Hs3; reflexivity).
  assert (Heach : checkEachBackend conf = Ok tt)
    by (unfold checkEachBackend; rewrite Hswift, Hgcs, Hs3; reflexivity).
  split; [|split; [|reflexivity]].
  - exact (Config_Validate_fails_if 3 _ conf _ eq_refl Hcount).
  - intros Hpass.
    apply (Config_Validate_fails_at 3 _ conf _ eq_refl Hcount).
    change (passes conf ([checkListenPort; checkTLSFiles]
                         ++ [checkEachBackend])).
    apply Forall_app. split; [exact Hpass|].
    constructor; [exact Heach | constructor].
Qed.

(** *** The deprecated encryption key *)

(** C6: a configuration in which the deprecated encryption key is set
    fails validation; when the earlier checks pass the error is the
    deprecation error. *)
Theorem deprecated_key_is_an_error conf :
  EncryptionKey conf <> "" ->
  (exists e, Config_Validate conf = Err e /\ (stage_of e <= 5)%nat) /\
  (passes conf before_encryption_key ->
     Config_Validate conf = Err ErrEncryptionKeyDeprecated).
Proof.
  intros Hkey.
  assert (Hchk : checkNoEncryptionKey conf = Err ErrEncryptionKeyDeprecated).
  { unfold checkNoEncryptionKey.
    rewrite (bool_decide_eq_false_2 _ Hkey). reflexivity. }
  split.
  - exact (Config_Validate_fails_if 5 _ conf _ eq_refl Hchk).
  - intros Hpass.
    exact (Config_Validate_fails_at 5 _ conf _ eq_refl Hchk Hpass).
Qed.

(** *** Recipients *)

Lemma checkRecipients_Ok conf :
  checkRecipients conf = Ok tt <->
  Encryption_AgeID conf ++ Encryption_AgeSSH conf <> [] /\
  Forall (fun r => age_ParseX25519Recipient r = Ok tt)
         (Encryption_AgeID conf) /\
  Forall (fun r => agessh_ParseRecipient r = Ok tt)
         (Encryption_AgeSSH conf).
Proof.
  unfold checkRecipients.
  rewrite !seq_Ok, failIf_Ok, !forEach_Ok.
  rewrite <- length_app.
  assert (Hlen : (length (Encryption_AgeID conf ++ Encryption_AgeSSH conf)
                  =? 0)%nat = false
                 <-> Encryption_AgeID conf ++ Encryption_AgeSSH conf <> []).
  { rewrite <- length_zero_iff.
    destruct (length _ =? 0)%nat; split; congruence. }
  rewrite Hlen.
  assert (Hid : forall r, wrap (ErrAgeID r) (age_ParseX25519Recipient r)
                          = Ok tt <-> age_ParseX25519Recipient r = Ok tt)
    by (intros r; apply wrap_Ok).
  assert (Hssh : forall r, wrap (ErrAgeSSH r) (agessh_ParseRecipient r)
                           = Ok tt <-> agessh_ParseRecipient r = Ok tt)
    by (intros r; apply wrap_Ok).
  rewrite (Forall_iff _ _ _ Hid), (Forall_iff _ _ _ Hssh).
  reflexivity.
Qed.

Lemma check_fails_stage k chk conf :
  documented_order !! k = Some chk -> chk conf <> Ok tt ->
  exists e, Config_Validate conf = Err e /\ (stage_of e <= k)%nat
            /\ (passes conf (take k documented_order) -> stage_of e = k).
Proof.
  intros Hk Hne.
  destruct (chk conf) as [[]|e] eqn:He; [contradiction|].
  destruct (Config_Validate_fails_if _ _ _ _ Hk He) as (e' & Hv & Hle).
  exists e'. repeat split; [exact Hv | exact Hle |].
  intros Hpass.
  rewrite (Config_Validate_fails_at _ _ _ _ Hk He Hpass) in Hv.
  injection Hv as <-. exact (error_stage _ _ _ _ Hk He).
Qed.

(** C7: validation requires a recipient and requires every recipient to
    parse, the [age-id] entries as native recipients and the [age-ssh]
    entries as SSH recipients.  Without any recipient validation fails,
    with the missing-key error when the earlier checks pass; with an
    entry that does not parse validation fails, with an error of the
    recipient check when the earlier checks pass. *)
Theorem recipients_required conf :
  (Encryption_AgeID conf = [] -> Encryption_AgeSSH conf = [] ->
     (exists e, Config_Validate conf = Err e /\ (stage_of e <= 6)%nat) /\
     (passes conf before_recipients ->
        Config_Validate conf = Err ErrNoAgeKey)) /\
  (forall r err,
      (r ∈ Encryption_AgeID conf /\ age_ParseX25519Recipient r = Err err)
      \/ (r ∈ Encryption_AgeSSH conf /\ agessh_ParseRecipient r = Err err) ->
      exists e, Config_Validate conf = Err e /\ (stage_of e <= 6)%nat
                /\ (passes conf before_recipients -> stage_of e = 6%nat)) /\
  (Config_Validate conf = Ok tt ->
     Encryption_AgeID conf ++ Encryption_AgeSSH conf <> [] /\
     Forall (fun r => age_ParseX25519Recipient r = Ok tt)
            (Encryption_AgeID conf) /\
     Forall (fun r => agessh_ParseRecipient r = Ok tt)
            (Encryption_AgeSSH conf)).
Proof.
  split; [|split].
  - intros Hid Hssh.
    assert (Hchk : checkRecipients conf = Err ErrNoAgeKey)
      by (unfold checkRecipients; rewrite Hid, Hssh; reflexivity).
    split.
    + exact (Config_Validate_fails_if 6 _ conf _ eq_refl Hchk).
    + intros Hpass.
      exact (Config_Validate_fails_at 6 _ conf _ eq_refl Hchk Hpass).
  - intros r err Hbad.
    apply (check_fails_stage 6 checkRecipients conf eq_refl).
    rewrite checkRecipients_Ok, !Forall_forall.
    intros (_ & Hid & Hssh).
    destruct Hbad as [[Hin Hr] | [Hin Hr]];
      [specialize (Hid r Hin) | specialize (Hssh r Hin)]; congruence.
  - intros Hv. apply Config_Validate_Ok in Hv.
    apply checkRecipients_Ok.
    exact (passes_lookup _ _ 6%nat _ Hv eq_refl).
Qed.

(** *** The duplicate check *)

Lemma holds_empty : holds ∅ [].
Proof.
  intros k. unfold mapGet. rewrite lookup_empty. simpl.
  split; [discriminate | intros Hk; inversion Hk].
Qed.

Lemma holds_mapSet m l k : holds m l -> holds (mapSet m k) (l ++ [k]).
Proof.
  intros Hm k'. unfold mapSet, mapGet.
  rewrite elem_of_app, list_elem_of_singleton, <- (Hm k').
  destruct (decide (k = k')) as [->|Hne].
  - rewrite lookup_insert_eq. simpl. tauto.
  - rewrite lookup_insert_ne by exact Hne. unfold mapGet.
    split; [auto | intros [Hk | ->]; [exact Hk | contradiction]].
Qed.

Lemma NoDup_snoc (l : list string) (k : string) :
  NoDup l -> k ∉ l -> NoDup (l ++ [k]).
Proof.
  intros Hl Hk. apply NoDup_app. repeat split.
  - exact Hl.
  - intros x Hx Hx'. apply list_elem_of_singleton in Hx'. subst x. contradiction.
  - apply NoDup_singleton.
Qed.

Lemma mapGet_holds m l k : holds m l -> mapGet m k = false <-> k ∉ l.
Proof.
  intros Hm. rewrite <- (Hm k). destruct (mapGet m k); split; congruence.
Qed.

(** The inner loop succeeds exactly when the addresses are new and
    pairwise different, and then it has recorded them. *)
Lemma dupIPs_spec c i ips m l :
  holds m l -> NoDup l ->
  match dupIPs c i ips m with
  | Ok m' => holds m' (l ++ map net.String ips)
             /\ NoDup (l ++ map net.String ips)
  | Err _ => ~ NoDup (l ++ map net.String ips)
  end.
Proof.
  revert m l; induction ips as [|ip ips IH]; intros m l Hm Hl;
    cbn [dupIPs map].
  - rewrite app_nil_r. auto.
  - destruct (mapGet m (net.String ip)) eqn:Hget.
    + apply Hm in Hget. rewrite NoDup_app. intros (_ & Hdisj & _).
      apply (Hdisj _ Hget). left.
    + apply (mapGet_holds _ _ _ Hm) in Hget.
      specialize (IH _ _ (holds_mapSet _ _ (net.String ip) Hm)
                     (NoDup_snoc _ _ Hl Hget)).
      rewrite <- app_assoc in IH. exact IH.
Qed.

Lemma ClientConfig_Name_again c :
  ClientConfig_Name (snd (ClientConfig_Name c)) = ClientConfig_Name c.
Proof.
  unfold ClientConfig_Name.
  destruct (decide (ClientName c = "")) as [Hn|Hn].
  - rewrite (bool_decide_eq_true_2 _ Hn). reflexivity.
  - rewrite (bool_decide_eq_false_2 _ Hn). simpl.
    rewrite (bool_decide_eq_false_2 _ Hn). reflexivity.
Qed.

Lemma ClientConfig_Name_frame c :
  Password (snd (ClientConfig_Name c)) = Password c
  /\ ClientConfig_IPv4 (snd (ClientConfig_Name c)) = ClientConfig_IPv4 c
  /\ ClientConfig_IPv6 (snd (ClientConfig_Name c)) = ClientConfig_IPv6 c.
Proof.
  unfold ClientConfig_Name, ClientConfig_IPv4, ClientConfig_IPv6.
  destruct (bool_decide (ClientName c = "")); simpl; auto.
Qed.

Lemma dupCheck_spec i c st ln lp la :
  holds (nameSet st) ln -> holds (passSet st) lp -> holds (ipSet st) la ->
  NoDup ln -> NoDup lp -> NoDup la ->
  match dupCheck i c st with
  | Ok st' =>
      (holds (nameSet st') (ln ++ [name_of c])
       /\ holds (passSet st') (lp ++ password_of c)
       /\ holds (ipSet st') (la ++ addresses c))
      /\ NoDup (ln ++ [name_of c]) /\ NoDup (lp ++ password_of c)
      /\ NoDup (la ++ addresses c)
  | Err _ =>
      ~ (NoDup (ln ++ [name_of c]) /\ NoDup (lp ++ password_of c)
         /\ NoDup (la ++ addresses c))
  end.
Proof.
  intros Hn Hp Ha Hln Hlp Hla.
  unfold dupCheck, name_of, password_of.
  destruct (ClientConfig_Name_frame c) as (Hpw & H4 & H6).
  pose proof (ClientConfig_Name_again c) as Hagain.
  destruct (ClientConfig_Name c) as [name c1] eqn:Hname.
  cbn [fst snd] in *.
  destruct (mapGet (nameSet st) name) eqn:Hget.
  - rewrite Hagain. intros (Hdup & _).
    apply Hn in Hget. apply NoDup_app in Hdup.
    destruct Hdup as (_ & Hdisj & _). apply (Hdisj _ Hget). left.
  - rewrite Hagain. rewrite Hpw, H4, H6.
    apply (mapGet_holds _ _ _ Hn) in Hget.
    pose proof (NoDup_snoc _ _ Hln Hget) as Hln'.
    pose proof (holds_mapSet _ _ name Hn) as Hn'.
    pose proof (dupIPs_spec c1 i
                  (ClientConfig_IPv6 c ++ ClientConfig_IPv4 c) _ _ Ha Hla)
      as Hips.
    assert (Haddr : map net.String (ClientConfig_IPv6 c ++ ClientConfig_IPv4 c)
                    = addresses c).
    { unfold addresses, canonical, ClientConfig_IPv6, ClientConfig_IPv4.
      rewrite <- map_app, map_map. reflexivity. }
    rewrite Haddr in Hips.
    destruct (decide (Password c = "")) as [Hempty|Hfull].
    + rewrite (bool_decide_eq_true_2 _ Hempty). cbn [negb bind].
      rewrite filter_cons_False, filter_nil by (intros Hne; contradiction).
      rewrite app_nil_r.
      destruct (dupIPs _ _ _ _) as [ips|e]; cbn [bind].
      * cbn [nameSet passSet ipSet]. tauto.
      * tauto.
    + rewrite (bool_decide_eq_false_2 _ Hfull). cbn [negb].
      rewrite filter_cons_True, filter_nil by exact Hfull.
      destruct (mapGet (passSet st) (Password c)) eqn:Hgetp.
      * rewrite Hagain. cbn [bind]. intros (_ & Hdup & _).
        apply Hp in Hgetp. apply NoDup_app in Hdup.
        destruct Hdup as (_ & Hdisj & _). apply (Hdisj _ Hgetp). left.
      * cbn [bind].
        apply (mapGet_holds _ _ _ Hp) in Hgetp.
        pose proof (NoDup_snoc _ _ Hlp Hgetp) as Hlp'.
        pose proof (holds_mapSet _ _ (Password c) Hp) as Hp'.
        destruct (dupIPs _ _ _ _) as [ips|e]; cbn [bind].
        -- cbn [nameSet passSet ipSet]. tauto.
        -- tauto.
Qed.

Lemma passwords_cons c cs : passwords (c :: cs) = password_of c ++ passwords cs.
Proof.
  unfold passwords, password_of. cbn [map].
  destruct (decide (Password c = "")) as [He|Hne].
  - rewrite !filter_cons_False by (intros Hne; contradiction). reflexivity.
  - rewrite !filter_cons_True by exact Hne. reflexivity.
Qed.

Lemma NoDup_app_l (l1 l2 : list string) : NoDup (l1 ++ l2) -> NoDup l1.
Proof. rewrite NoDup_app. tauto. Qed.

(** The loop succeeds exactly when no name, no non-empty password and
    no address occurs twice, in what was recorded before or in the
    entries it visits. *)
Lemma dupLoop_spec clients i st ln lp la :
  holds (nameSet st) ln -> holds (passSet st) lp -> holds (ipSet st) la ->
  NoDup ln -> NoDup lp -> NoDup la ->
  dupLoop i clients st = Ok tt <->
  NoDup (ln ++ map name_of clients) /\ NoDup (lp ++ passwords clients)
  /\ NoDup (la ++ all_addresses clients).
Proof.
  revert i st ln lp la.
  induction clients as [|c clients IH]; intros i st ln lp la Hn Hp Ha Hln Hlp Hla.
  - cbn [dupLoop map]. unfold passwords, all_addresses. cbn [map concat].
    rewrite filter_nil, !app_nil_r. tauto.
  - cbn [dupLoop map]. rewrite passwords_cons.
    unfold all_addresses. cbn [map concat]. fold (all_addresses clients).
    pose proof (dupCheck_spec i c st ln lp la Hn Hp Ha Hln Hlp Hla) as Hc.
    destruct (dupCheck i c st) as [st'|e]; cbn [bind].
    + destruct Hc as ((Hn' & Hp' & Ha') & Hln' & Hlp' & Hla').
      rewrite (IH (S i) st' _ _ _ Hn' Hp' Ha' Hln' Hlp' Hla').
      rewrite <- !app_assoc. reflexivity.
    + split; [discriminate|]. intros (H1 & H2 & H3). exfalso. apply Hc.
      rewrite !app_assoc in H2, H3.
      change (name_of c :: map name_of clients)
        with ([name_of c] ++ map name_of clients) in H1.
      rewrite app_assoc in H1.
      repeat split; eapply NoDup_app_l; eassumption.
Qed.

Lemma dupLoop_Ok clients :
  dupLoop 0 clients (Seen ∅ ∅ ∅) = Ok tt <->
  NoDup (map name_of clients) /\ NoDup (passwords clients)
  /\ NoDup (all_addresses clients).
Proof.
  apply (dupLoop_spec clients 0 (Seen ∅ ∅ ∅) [] [] []);
    first [apply holds_empty | apply NoDup_nil_2].
Qed.

(** Entries that validate have their name, which [Name] returns. *)
Lemma name_of_valid (roster : list ClientConfig) :
  Forall (fun c => ClientConfig_Validate c = Ok tt) roster ->
  map name_of roster = map ClientName roster.
Proof.
  intros Hall. apply map_ext_Forall. 
  eapply Forall_impl; [exact Hall|]. intros c Hc.
  apply ClientConfig_Validate_Ok in Hc. destruct Hc as (Hname & _).
  unfold name_of, ClientConfig_Name.
  rewrite (bool_decide_eq_false_2 _ Hname). reflexivity.
Qed.

(** The roster check, condition by condition. *)
Lemma checkClients_Ok conf :
  checkClients conf = Ok tt <->
  ClientFile conf <> "" /\
  exists fc roster,
    ioutil_ReadFile (ClientFile conf) = Ok fc /\
    yaml_Unmarshal fc = Ok roster /\
    roster <> [] /\
    Forall (fun c => ClientConfig_Validate c = Ok tt) roster /\
    roster_unique roster.
Proof.
  unfold checkClients, roster_unique.
  rewrite seq_Ok, failIf_Ok, bool_decide_eq_false.
  split.
  - intros (Hfile & Hrest). split; [exact Hfile|].
    apply bind_Ok in Hrest. destruct Hrest as (fc & Hread & Hrest).
    apply bind_Ok in Hrest. destruct Hrest as (roster & Hyaml & Hrest).
    apply wrap_Ok in Hread, Hyaml.
    apply seq_Ok in Hrest. destruct Hrest as (Hlen & Hrest).
    apply seq_Ok in Hrest. destruct Hrest as (Heach & Hdup).
    exists fc, roster.
    assert (Hvalid : Forall (fun c => ClientConfig_Validate c = Ok tt) roster).
    { apply Forall_lookup. intros k c Hk.
      apply (proj1 (forEachI_Ok _ _ _) Heach) in Hk.
      destruct (ClientConfig_Validate c) as [[]|]; [reflexivity | discriminate]. }
    apply dupLoop_Ok in Hdup. rewrite (name_of_valid _ Hvalid) in Hdup.
    apply failIf_Ok in Hlen.
    repeat split; try tauto.
    intros ->. discriminate.
  - intros (Hfile & fc & roster & Hread & Hyaml & Hne & Hvalid & Hdup).
    split; [exact Hfile|].
    rewrite Hread. cbn [wrap bind]. rewrite Hyaml. cbn [wrap bind].
    rewrite !seq_Ok, failIf_Ok. repeat split.
    + destruct roster; [contradiction | reflexivity].
    + apply forEachI_Ok. intros k c Hk.
      rewrite Forall_lookup in Hvalid. rewrite (Hvalid k c Hk). reflexivity.
    + apply dupLoop_Ok. rewrite (name_of_valid _ Hvalid). exact Hdup.
Qed.

End ConfigProperties.

(** ** Uniqueness across the roster *)

Section Uniqueness.

Implicit Types (roster : list ClientConfig) (c : ClientConfig).

Lemma names_unique roster i j ci cj :
  NoDup (map ClientName roster) ->
  roster !! i = Some ci -> roster !! j = Some cj ->
  ClientName ci = ClientName cj -> i = j.
Proof.
  intros Hnd Hi Hj Heq.
  apply (proj1 (NoDup_alt _) Hnd i j (ClientName ci)).
  - change (map ClientName roster !! i) with ((ClientName <$> roster) !! i).
    rewrite list_lookup_fmap, Hi. reflexivity.
  - change (map ClientName roster !! j) with ((ClientName <$> roster) !! j).
    rewrite list_lookup_fmap, Hj, Heq. reflexivity.
Qed.

Lemma password_recorded roster i c :
  roster !! i = Some c -> Password c <> "" -> Password c ∈ passwords roster.
Proof.
  intros Hi Hne. unfold passwords.
  apply list_elem_of_filter. split; [exact Hne|].
  apply list_elem_of_fmap. exists c. split; [reflexivity|].
  eapply list_elem_of_lookup_2; exact Hi.
Qed.

Lemma passwords_unique roster i j ci cj :
  NoDup (passwords roster) ->
  roster !! i = Some ci -> roster !! j = Some cj ->
  Password ci <> "" -> Password ci = Password cj -> i = j.
Proof.
  revert i j. induction roster as [|c roster IH]; intros i j Hnd Hi Hj Hne Heq.
  - rewrite lookup_nil in Hi. discriminate.
  - rewrite passwords_cons in Hnd. apply NoDup_app in Hnd.
    destruct Hnd as (_ & Hdisj & Hnd).
    assert (Hhead : forall k c', roster !! k = Some c' ->
                                 Password c' <> "" -> Password c' = Password c -> False).
    { intros k c' Hk Hne' Heq'. apply (Hdisj (Password c)).
      - unfold password_of. rewrite filter_cons_True by congruence. left.
      - rewrite <- Heq'. eapply password_recorded; eassumption. }
    destruct i as [|i], j as [|j]; cbn [lookup list_lookup] in Hi, Hj.
    + reflexivity.
    + injection Hi as ->. exfalso.
      apply (Hhead j cj Hj); congruence.
    + injection Hj as ->. exfalso.
      apply (Hhead i ci Hi); congruence.
    + f_equal. eapply IH; eassumption.
Qed.

Lemma address_recorded roster i c a :
  roster !! i = Some c -> a ∈ addresses c -> a ∈ all_addresses roster.
Proof.
  revert i. induction roster as [|c' roster IH]; intros i Hi Ha.
  - rewrite lookup_nil in Hi. discriminate.
  - unfold all_addresses. cbn [map concat]. fold (all_addresses roster).
    apply elem_of_app.
    destruct i as [|i]; cbn [lookup list_lookup] in Hi.
    + injection Hi as ->. left; exact Ha.
    + right. exact (IH i Hi Ha).
Qed.

Lemma addresses_unique roster i j ci cj a :
  NoDup (all_addresses roster) ->
  roster !! i = Some ci -> roster !! j = Some cj ->
  a ∈ addresses ci -> a ∈ addresses cj -> i = j.
Proof.
  revert i j. induction roster as [|c roster IH]; intros i j Hnd Hi Hj Hai Haj.
  - rewrite lookup_nil in Hi. discriminate.
  - unfold all_addresses in Hnd. cbn [map concat] in Hnd.
    fold (all_addresses roster) in Hnd.
    apply NoDup_app in Hnd. destruct Hnd as (_ & Hdisj & Hnd).
    destruct i as [|i], j as [|j]; cbn [lookup list_lookup] in Hi, Hj.
    + reflexivity.
    + injection Hi as ->. exfalso. apply (Hdisj a Hai).
      eapply address_recorded; eassumption.
    + injection Hj as ->. exfalso. apply (Hdisj a Haj).
      eapply address_recorded; eassumption.
    + f_equal. eapply IH; eassumption.
Qed.

(** Within one entry too, no address is listed twice. *)
Lemma addresses_unique_within roster c :
  NoDup (all_addresses roster) -> c ∈ roster -> NoDup (addresses c).
Proof.
  induction roster as [|c' roster IH]; intros Hnd Hin.
  - inversion Hin.
  - unfold all_addresses in Hnd. cbn [map concat] in Hnd.
    fold (all_addresses roster) in Hnd.
    apply NoDup_app in Hnd. destruct Hnd as (Hhead & _ & Hnd).
    apply elem_of_cons in Hin. destruct Hin as [->|Hin];
      [exact Hhead | exact (IH Hnd Hin)].
Qed.

(** What the code checks implies what the specification words. *)
Lemma roster_unique_specified roster :
  roster_unique roster -> roster_unique_as_specified roster.
Proof.
  intros (Hnames & Hpass & Haddr) i j ci cj Hij Hi Hj.
  repeat split.
  - intros Heq. apply Hij. eapply names_unique; eassumption.
  - intros Hne Heq. apply Hij. eapply passwords_unique; eassumption.
  - intros a Hai Haj. apply Hij. eapply addresses_unique; eassumption.
Qed.

Lemma in_passwords roster p :
  p ∈ passwords roster ->
  exists k c, roster !! k = Some c /\ Password c = p /\ p <> "".
Proof.
  unfold passwords. rewrite list_elem_of_filter, list_elem_of_fmap.
  intros (Hne & c & -> & Hin).
  apply list_elem_of_lookup_1 in Hin. destruct Hin as (k & Hk).
  exists k, c. auto.
Qed.

Lemma in_all_addresses roster a :
  a ∈ all_addresses roster ->
  exists k c, roster !! k = Some c /\ a ∈ addresses c.
Proof.
  induction roster as [|c roster IH].
  - intros Hin. inversion Hin.
  - unfold all_addresses. cbn [map concat]. fold (all_addresses roster).
    rewrite elem_of_app. intros [Hin | Hin].
    + exists O, c. auto.
    + destruct (IH Hin) as (k & c' & Hk & Ha). exists (S k), c'. auto.
Qed.

(** The two wordings differ by the addresses an entry lists twice. *)
Lemma roster_unique_iff roster :
  roster_unique roster <->
  roster_unique_as_specified roster
  /\ Forall (fun c => NoDup (addresses c)) roster.
Proof.
  split.
  - intros Hu. split; [exact (roster_unique_specified _ Hu)|].
    apply Forall_forall. intros c Hc.
    destruct Hu as (_ & _ & Haddr).
    exact (addresses_unique_within _ _ Haddr Hc).
  - intros [Hspec Hwithin]. unfold roster_unique.
    induction roster as [|c roster IH].
    + unfold passwords, all_addresses. cbn [map concat].
      rewrite filter_nil. repeat split; apply NoDup_nil_2.
    + apply Forall_cons in Hwithin. destruct Hwithin as [Hc Hwithin].
      assert (Htail : roster_unique_as_specified roster).
      { intros i j ci cj Hij Hi Hj.
        apply (Hspec (S i) (S j) ci cj); [congruence | exact Hi | exact Hj]. }
      assert (Hhead : forall k c', roster !! k = Some c' ->
                 ClientName c <> ClientName c' /\
                 (Password c <> "" -> Password c <> Password c') /\
                 (forall a, a ∈ addresses c -> a ∉ addresses c')).
      { intros k c' Hk. apply (Hspec O (S k) c c'); [discriminate | reflexivity | exact Hk]. }
      destruct (IH Htail Hwithin) as (Hn & Hp & Ha).
      repeat split.
      * cbn [map]. apply NoDup_cons. split; [|exact Hn].
        intros Hin. apply list_elem_of_fmap in Hin.
        destruct Hin as (c' & Heq & Hin).
        apply list_elem_of_lookup_1 in Hin. destruct Hin as (k & Hk).
        destruct (Hhead k c' Hk) as (Hne & _). contradiction.
      * rewrite passwords_cons. apply NoDup_app. repeat split; [| |exact Hp].
        -- unfold password_of.
           destruct (decide (Password c = "")) as [He|Hne].
           ++ rewrite filter_cons_False, filter_nil by (intros Hne; contradiction).
              apply NoDup_nil_2.
           ++ rewrite filter_cons_True, filter_nil by exact Hne.
              apply NoDup_singleton.
        -- intros p Hp1 Hp2. unfold password_of in Hp1.
           apply list_elem_of_filter in Hp1. destruct Hp1 as [Hne Hp1].
           apply list_elem_of_singleton in Hp1. subst p.
           destruct (in_passwords _ _ Hp2) as (k & c' & Hk & Heq & _).
           destruct (Hhead k c' Hk) as (_ & Hpw & _).
           apply (Hpw Hne). congruence.
      * unfold all_addresses. cbn [map concat]. fold (all_addresses roster).
        apply NoDup_app. repeat split; [exact Hc | | exact Ha].
        intros a Ha1 Ha2.
        destruct (in_all_addresses _ _ Ha2) as (k & c' & Hk & Hin).
        destruct (Hhead k c' Hk) as (_ & _ & Hdisj).
        exact (Hdisj a Ha1 Hin).
Qed.

End Uniqueness.

(** ** Metrics credentials *)


Lemma isAlnum_spec (c : ascii) :
  isAlnum c = true <->
  97 <= byteOf c <= 122 \/ 65 <= byteOf c <= 90 \/ 48 <= byteOf c <= 57.
Proof.
  unfold isAlnum. cbn zeta.
  rewrite !orb_true_iff, !andb_true_iff, !Z.leb_le. tauto.
Qed.

Lemma matchAuth_spec (s : string) :
  matchAuth s = true <-> matches_auth_pattern s.
Proof.
  unfold matchAuth, matches_auth_pattern, alphanumeric.
  rewrite !andb_true_iff, !Nat.leb_le, forallb_forall.
  split.
  - intros [[Hall Hlo] Hhi]. split; [lia|].
    intros c Hc. apply isAlnum_spec, Hall, list_elem_of_In, Hc.
  - intros [Hlen Hall]. repeat split; try lia.
    intros c Hc. apply isAlnum_spec, Hall, list_elem_of_In, Hc.
Qed.

Section Metrics.
Context `{Platform}.

Implicit Types (conf : Config).

Lemma checkPrometheus_enabled conf :
  PrometheusEnabled conf = true ->
  checkPrometheus conf = Ok tt <->
  matches_auth_pattern (PrometheusAuthUser conf)
  /\ matches_auth_pattern (PrometheusAuthPass conf).
Proof.
  intros Hon. unfold checkPrometheus. rewrite Hon.
  rewrite !seq_Ok, !failIf_Ok, !negb_false_iff, !bool_decide_eq_false,
    !matchAuth_spec.
  split; [tauto|]. intros [Hu Hp].
  assert (Hne : forall s, matches_auth_pattern s -> s <> "").
  { intros s [Hlen _] ->. simpl in Hlen. lia. }
  auto.
Qed.

(** C5: with metrics enabled, validation requires the Basic-Auth user
    name and password to match [[A-Za-z0-9]{20,128}]: a configuration
    that validates has both of that pattern; a user name of 10 bytes
    makes validation fail, with the pattern error when the earlier checks
    pass; a user name and a password of 24 letters and digits pass the
    metrics check, and validation succeeds when the other checks pass.
    With metrics disabled the credentials are not looked at: changing
    them does not change the outcome. *)
Theorem prometheus_credentials conf :
  (PrometheusEnabled conf = true ->
     (Config_Validate conf = Ok tt ->
        matches_auth_pattern (PrometheusAuthUser conf)
        /\ matches_auth_pattern (PrometheusAuthPass conf)) /\
     (len (PrometheusAuthUser conf) = 10%nat ->
        (exists e, Config_Validate conf = Err e /\ (stage_of e <= 7)%nat) /\
        (passes conf before_prometheus ->
           Config_Validate conf = Err ErrPrometheusUserPattern)) /\
     (len (PrometheusAuthUser conf) = 24%nat ->
      len (PrometheusAuthPass conf) = 24%nat ->
      alphanumeric (PrometheusAuthUser conf) ->
      alphanumeric (PrometheusAuthPass conf) ->
        checkPrometheus conf = Ok tt /\
        (passes conf before_prometheus -> checkClients conf = Ok tt ->
           Config_Validate conf = Ok tt))) /\
  (PrometheusEnabled conf = false ->
     forall user pass,
       checkPrometheus (with_credentials user pass conf) = Ok tt /\
       Config_Validate (with_credentials user pass conf)
       = Config_Validate conf).
Proof.
  split.
  - intros Hon. split; [|split].
    + intros Hv. apply Config_Validate_Ok in Hv.
      apply (checkPrometheus_enabled conf Hon).
      exact (passes_lookup _ _ 7%nat _ Hv eq_refl).
    + intros Hlen.
      assert (Hchk : checkPrometheus conf = Err ErrPrometheusUserPattern).
      { unfold checkPrometheus. rewrite Hon.
        assert (Hne : bool_decide (PrometheusAuthUser conf = "") = false).
        { apply bool_decide_eq_false. intros Heq.
          rewrite Heq in Hlen. discriminate. }
        assert (Hno : matchAuth (PrometheusAuthUser conf) = false).
        { unfold matchAuth. rewrite Hlen. apply andb_false_iff. left.
          apply andb_false_iff. right. reflexivity. }
        rewrite Hne, Hno. reflexivity. }
      split.
      * exact (Config_Validate_fails_if 7 _ conf _ eq_refl Hchk).
      * intros Hpass.
        exact (Config_Validate_fails_at 7 _ conf _ eq_refl Hchk Hpass).
    + intros Hu Hp Hau Hap.
      assert (Hchk : checkPrometheus conf = Ok tt).
      { apply (checkPrometheus_enabled conf Hon).
        unfold matches_auth_pattern. rewrite Hu, Hp.
        repeat split; try lia; assumption. }
      split; [exact Hchk|].
      intros Hpass Hclients. apply Config_Validate_Ok.
      change (passes conf (before_prometheus
                           ++ [checkPrometheus; checkClients])).
      apply Forall_app. split; [exact Hpass|].
      repeat constructor; assumption.
  - intros Hoff user pass. split.
    + unfold checkPrometheus, with_credentials. cbn [PrometheusEnabled].
      rewrite Hoff. reflexivity.
    + unfold Config_Validate, with_credentials.
      cbn [ListenPort TLSChainPath TLSKeyPath SwiftBackends GCSBackends
           S3Backends MaxUploadRAM EncryptionKey Encryption_AgeID
           Encryption_AgeSSH PrometheusEnabled PrometheusAuthUser
           PrometheusAuthPass ClientFile].
      rewrite Hoff. reflexivity.
Qed.

End Metrics.

(** ** The roster *)

Section Roster.
Context `{Platform}.

Implicit Types (conf : Config) (roster : list ClientConfig).

Lemma roster_of_valid conf fc roster :
  ioutil_ReadFile (ClientFile conf) = Ok fc ->
  yaml_Unmarshal fc = Ok roster ->
  Config_Validate conf = Ok tt ->
  Forall (fun c => ClientConfig_Validate c = Ok tt) roster
  /\ roster_unique roster.
Proof.
  intros Hread Hyaml Hv. apply Config_Validate_Ok in Hv.
  pose proof (passes_lookup _ _ 8%nat _ Hv eq_refl) as Hc.
  apply checkClients_Ok in Hc.
  destruct Hc as (_ & fc' & roster' & Hread' & Hyaml' & _ & Hvalid & Hu).
  rewrite Hread in Hread'. injection Hread' as <-.
  rewrite Hyaml in Hyaml'. injection Hyaml' as <-.
  auto.
Qed.

Lemma not_valid_fails conf :
  Config_Validate conf <> Ok tt -> exists e, Config_Validate conf = Err e.
Proof.
  destruct (Config_Validate conf) as [[]|e]; [contradiction | eauto].
Qed.

(** C2 (amended): a roster in which two entries share a name, a
    non-empty password or an address fails validation; a non-empty
    roster whose entries each validate, share no name, no non-empty
    password and no address, and list no address twice within one
    entry, validates when the checks before the roster pass. *)
Theorem roster_uniqueness conf fc roster :
  ioutil_ReadFile (ClientFile conf) = Ok fc ->
  yaml_Unmarshal fc = Ok roster ->
  ((exists i j ci cj,
       i <> j /\ roster !! i = Some ci /\ roster !! j = Some cj /\
       (ClientName ci = ClientName cj
        \/ (Password ci <> "" /\ Password ci = Password cj)
        \/ exists a, a ∈ addresses ci /\ a ∈ addresses cj)) ->
   exists e, Config_Validate conf = Err e) /\
  (passes conf before_clients ->
   ClientFile conf <> "" ->
   roster <> [] ->
   Forall (fun c => ClientConfig_Validate c = Ok tt) roster ->
   roster_unique_as_specified roster ->
   Forall (fun c => NoDup (addresses c)) roster ->
   Config_Validate conf = Ok tt).
Proof.
  intros Hread Hyaml. split.
  - intros (i & j & ci & cj & Hij & Hi & Hj & Hshare).
    apply not_valid_fails. intros Hv.
    destruct (roster_of_valid _ _ _ Hread Hyaml Hv) as [_ Hu].
    apply roster_unique_specified in Hu.
    destruct (Hu i j ci cj Hij Hi Hj) as (Hname & Hpw & Haddr).
    destruct Hshare as [Heq | [[Hne Heq] | (a & Hai & Haj)]].
    + contradiction.
    + exact (Hpw Hne Heq).
    + exact (Haddr a Hai Haj).
  - intros Hpass Hfile Hne Hvalid Hspec Hwithin.
    apply Config_Validate_Ok.
    change (passes conf (before_clients ++ [checkClients])).
    apply Forall_app. split; [exact Hpass|].
    constructor; [|constructor].
    apply checkClients_Ok. split; [exact Hfile|].
    exists fc, roster.
    split; [exact Hread|]. split; [exact Hyaml|].
    split; [exact Hne|]. split; [exact Hvalid|].
    apply roster_unique_iff. auto.
Qed.

(** *** Which error the duplicate check returns *)

Lemma dupIPs_Err c i ips m e :
  dupIPs c i ips m = Err e ->
  exists ip, e = ErrClientDupIP (name_of c) (i + 1) ip.
Proof.
  revert m; induction ips as [|ip ips IH]; intros m; cbn [dupIPs].
  - discriminate.
  - destruct (mapGet m (net.String ip)); [|apply IH].
    intros [= <-]. eexists; reflexivity.
Qed.

Lemma dupCheck_Err i c st ln lp e :
  holds (nameSet st) ln -> holds (passSet st) lp ->
  name_of c ∉ ln -> (forall p, p ∈ password_of c -> p ∉ lp) ->
  dupCheck i c st = Err e ->
  exists ip, e = ErrClientDupIP (name_of c) (i + 1) ip.
Proof.
  intros Hn Hp Hname Hpw.
  unfold dupCheck, name_of, password_of in *.
  destruct (ClientConfig_Name_frame c) as (Hpweq & _ & _).
  pose proof (ClientConfig_Name_again c) as Hagain.
  destruct (ClientConfig_Name c) as [name c1] eqn:Hnm.
  cbn [fst snd] in *.
  apply (mapGet_holds _ _ _ Hn) in Hname. rewrite Hname, Hagain, Hpweq.
  destruct (decide (Password c = "")) as [Hempty|Hfull].
  - rewrite (bool_decide_eq_true_2 _ Hempty). cbn [negb bind].
    rewrite bind_Err. intros [Hips | (ips & _ & [=])].
    apply dupIPs_Err in Hips. unfold name_of in Hips.
    rewrite Hagain in Hips. exact Hips.
  - rewrite (bool_decide_eq_false_2 _ Hfull). cbn [negb].
    assert (Hfresh : mapGet (passSet st) (Password c) = false).
    { apply (mapGet_holds _ _ _ Hp). apply Hpw.
      rewrite filter_cons_True by exact Hfull. left. }
    rewrite Hfresh. cbn [bind].
    rewrite bind_Err. intros [Hips | (ips & _ & [=])].
    apply dupIPs_Err in Hips. unfold name_of in Hips.
    rewrite Hagain in Hips. exact Hips.
Qed.

(** With names and passwords unique, the only error left is the one
    for a reused address, and it names an entry of the roster. *)
Lemma dupLoop_Err clients i st ln lp la e :
  holds (nameSet st) ln -> holds (passSet st) lp -> holds (ipSet st) la ->
  NoDup la ->
  NoDup (ln ++ map name_of clients) -> NoDup (lp ++ passwords clients) ->
  dupLoop i clients st = Err e ->
  exists k c ip, clients !! k = Some c
                 /\ e = ErrClientDupIP (name_of c) (i + k + 1) ip.
Proof.
  revert i st ln lp la.
  induction clients as [|c clients IH];
    intros i st ln lp la Hn Hp Ha Hla Hnames Hpass; cbn [dupLoop].
  - discriminate.
  - cbn [map] in Hnames. rewrite passwords_cons in Hpass.
    change (name_of c :: map name_of clients)
      with ([name_of c] ++ map name_of clients) in Hnames.
    rewrite app_assoc in Hnames, Hpass.
    pose proof (NoDup_app_l _ _ Hnames) as Hln'.
    pose proof (NoDup_app_l _ _ Hpass) as Hlp'.
    pose proof (NoDup_app_l _ _ Hln') as Hln.
    pose proof (NoDup_app_l _ _ Hlp') as Hlp.
    assert (Hname : name_of c ∉ ln).
    { apply NoDup_app in Hln'. destruct Hln' as (_ & Hdisj & _).
      intros Hin. apply (Hdisj _ Hin). left. }
    assert (Hpw : forall p, p ∈ password_of c -> p ∉ lp).
    { apply NoDup_app in Hlp'. destruct Hlp' as (_ & Hdisj & _).
      intros p Hin Hin'. exact (Hdisj _ Hin' Hin). }
    pose proof (dupCheck_spec i c st ln lp la Hn Hp Ha Hln Hlp Hla) as Hspec.
    rewrite bind_Err. intros [Hc | (st' & Hc & Hl)].
    + destruct (dupCheck_Err _ _ _ _ _ _ Hn Hp Hname Hpw Hc) as (ip & ->).
      exists O, c, ip. rewrite Nat.add_0_r. auto.
    + rewrite Hc in Hspec.
      destruct Hspec as ((Hn' & Hp' & Ha') & _ & _ & Hla').
      destruct (IH (S i) st' _ _ _ Hn' Hp' Ha' Hla' Hnames Hpass Hl)
        as (k & c' & ip & Hk & ->).
      exists (S k), c', ip. split; [exact Hk|].
      f_equal. lia.
Qed.

(** C10: the duplicate-address check is stricter than uniqueness across
    clients.  It records the printed form of every address of the
    concatenation of all the entries' IPv6 and IPv4 lists, so a roster in
    which one entry lists an address twice fails validation; when
    everything else is valid the error is the one for a reused address,
    and validation succeeds exactly when no address occurs twice in that
    concatenation. *)
Theorem address_twice_in_one_entry conf fc roster :
  ioutil_ReadFile (ClientFile conf) = Ok fc ->
  yaml_Unmarshal fc = Ok roster ->
  (forall c, c ∈ roster -> ~ NoDup (addresses c) ->
             exists e, Config_Validate conf = Err e) /\
  (passes conf before_clients -> ClientFile conf <> "" -> roster <> [] ->
   Forall (fun c => ClientConfig_Validate c = Ok tt) roster ->
   NoDup (map ClientName roster) -> NoDup (passwords roster) ->
   (Config_Validate conf = Ok tt <-> NoDup (all_addresses roster)) /\
   (~ NoDup (all_addresses roster) ->
    exists k c ip,
      roster !! k = Some c /\
      Config_Validate conf = Err (ErrClientDupIP (ClientName c) (k + 1) ip))).
Proof.
  intros Hread Hyaml. split.
  - intros c Hin Hdup. apply not_valid_fails. intros Hv.
    destruct (roster_of_valid _ _ _ Hread Hyaml Hv) as [_ (_ & _ & Hu)].
    exact (Hdup (addresses_unique_within _ _ Hu Hin)).
  - intros Hpass Hfile Hne Hvalid Hnames Hpw.
    assert (Hiff : Config_Validate conf = Ok tt <-> NoDup (all_addresses roster)).
    { split.
      - intros Hv.
        destruct (roster_of_valid _ _ _ Hread Hyaml Hv) as [_ (_ & _ & Hu)].
        exact Hu.
      - intros Hu. apply Config_Validate_Ok.
        change (passes conf (before_clients ++ [checkClients])).
        apply Forall_app. split; [exact Hpass|].
        constructor; [|constructor].
        apply checkClients_Ok. split; [exact Hfile|].
        exists fc, roster. unfold roster_unique.
        split; [exact Hread|]. split; [exact Hyaml|].
        split; [exact Hne|]. split; [exact Hvalid|]. auto. }
    split; [exact Hiff|].
    intros Hdup.
    assert (Hloop : exists e, dupLoop 0 roster (Seen ∅ ∅ ∅) = Err e).
    { destruct (dupLoop 0 roster (Seen ∅ ∅ ∅)) as [[]|e] eqn:Hl; [|eauto].
      apply dupLoop_Ok in Hl. tauto. }
    destruct Hloop as (e & Hl).
    assert (Hchk : checkClients conf = Err e).
    { unfold checkClients.
      rewrite (bool_decide_eq_false_2 _ Hfile), Hread. cbn [failIf wrap bind].
      rewrite Hyaml. cbn [wrap bind].
      destruct roster as [|c0 roster0]; [contradiction|].
      cbn [length Nat.eqb failIf bind].
      assert (Heach : forEachI
                (fun i c =>
                   match ClientConfig_Validate c with
                   | Ok _ => Ok tt
                   | Err err =>
                       Err (ErrClientInvalid (fst (ClientConfig_Name c))
                                             (i + 1) err)
                   end) 0 (c0 :: roster0) = Ok tt).
      { apply forEachI_Ok. intros k c Hk.
        rewrite Forall_lookup in Hvalid. rewrite (Hvalid k c Hk). reflexivity. }
      rewrite Heach. cbn [bind]. exact Hl. }
    rewrite <- (name_of_valid _ Hvalid) in Hnames.
    destruct (dupLoop_Err roster 0 (Seen ∅ ∅ ∅) [] [] [] e
                holds_empty holds_empty holds_empty (NoDup_nil_2 (A:=string))
                Hnames Hpw Hl) as (k & c & ip & Hk & ->).
    exists k, c, ip. split; [exact Hk|].
    assert (Hname : name_of c = ClientName c).
    { rewrite Forall_lookup in Hvalid. specialize (Hvalid k c Hk).
      apply ClientConfig_Validate_Ok in Hvalid. destruct Hvalid as (Hn & _).
      unfold name_of, ClientConfig_Name.
      rewrite (bool_decide_eq_false_2 _ Hn). reflexivity. }
    rewrite <- Hname.
    exact (Config_Validate_fails_at 8 _ conf _ eq_refl Hchk Hpass).
Qed.

End Roster.

(** * The properties on the concrete installation *)

Lemma alphanumeric_computed (s : string) :
  forallb isAlnum (list_ascii_of_string s) = true -> alphanumeric s.
Proof.
  rewrite forallb_forall. intros Hall c Hc.
  apply isAlnum_spec, Hall, list_elem_of_In, Hc.
Qed.

Ltac computed := vm_compute; reflexivity.
Ltac all_pass := repeat constructor; vm_compute; reflexivity.

(** The broken configuration fails on its first failing check, the
    backend count. *)
Lemma Config_Validate_first_error_wins_witness :
  Config_Validate example.broken = Err ErrNoBackend.
Proof.
  apply (proj1 (proj2 (proj2
           (Config_Validate_first_error_wins example.broken)))
           3%nat checkSomeBackend ErrNoBackend).
  - reflexivity.
  - computed.
  - all_pass.
Defined.

(** A port above the range is refused by the port check. *)
Lemma ListenPort_range_witness :
  Config_Validate
    (example.configure 70000 [example.offsite] "" [example.recipient]
                       false "" "" [example.alpha])
  = Err ErrPortTooLarge.
Proof.
  apply (proj1 (proj2 (ListenPort_range
           (example.configure 70000 [example.offsite] ""
              [example.recipient] false "" "" [example.alpha])))).
  reflexivity.
Defined.

(** Without backends the installation does not validate. *)
Lemma no_backend_is_an_error_witness :
  Config_Validate
    (example.configure 8443 [] "" [example.recipient] false "" ""
                       [example.alpha])
  = Err ErrNoBackend.
Proof.
  apply (no_backend_is_an_error
           (example.configure 8443 [] "" [example.recipient] false "" ""
                              [example.alpha])
           eq_refl eq_refl eq_refl).
  all_pass.
Defined.

(** With the deprecated key set the installation does not validate. *)
Lemma deprecated_key_is_an_error_witness :
  Config_Validate
    (example.configure 8443 [example.offsite] "0123456789abcdef"
                       [example.recipient] false "" "" [example.alpha])
  = Err ErrEncryptionKeyDeprecated.
Proof.
  apply (deprecated_key_is_an_error
           (example.configure 8443 [example.offsite] "0123456789abcdef"
              [example.recipient] false "" "" [example.alpha])).
  - discriminate.
  - all_pass.
Defined.

(** Without recipients the installation does not validate. *)
Lemma recipients_required_witness :
  Config_Validate
    (example.configure 8443 [example.offsite] "" [] false "" ""
                       [example.alpha])
  = Err ErrNoAgeKey.
Proof.
  apply (proj1 (recipients_required
           (example.configure 8443 [example.offsite] "" [] false "" ""
                              [example.alpha])) eq_refl eq_refl).
  all_pass.
Defined.

(** With metrics enabled and credentials of 24 letters and digits the
    installation validates. *)
Lemma prometheus_credentials_witness :
  Config_Validate
    (example.configure 8443 [example.offsite] "" [example.recipient]
                       true example.scraper example.secret
                       [example.alpha; example.beta])
  = Ok tt.
Proof.
  apply (proj2 (proj2 (proj1 (prometheus_credentials
           (example.configure 8443 [example.offsite] ""
              [example.recipient] true example.scraper example.secret
              [example.alpha; example.beta])) eq_refl))).
  - reflexivity.
  - reflexivity.
  - apply alphanumeric_computed. reflexivity.
  - apply alphanumeric_computed. reflexivity.
  - all_pass.
  - computed.
Defined.

Lemma example_roster_unique : roster_unique [example.alpha; example.beta].
Proof.
  repeat split; apply (bool_decide_unpack _); vm_compute; exact I.
Qed.

Lemma example_roster_valid :
  Forall (fun c => ClientConfig_Validate c = Ok tt)
         [example.alpha; example.beta].
Proof. repeat constructor. Qed.

(** The roster of [alpha] and [beta], which share nothing, validates. *)
Lemma roster_uniqueness_witness :
  Config_Validate (example.conf [example.alpha; example.beta]) = Ok tt.
Proof.
  apply (proj2 (roster_uniqueness
           (example.conf [example.alpha; example.beta])
           "/etc/eldim/clients.yml" [example.alpha; example.beta]
           eq_refl eq_refl)).
  - all_pass.
  - discriminate.
  - discriminate.
  - exact example_roster_valid.
  - exact (proj1 (proj1 (roster_unique_iff _) example_roster_unique)).
  - exact (proj2 (proj1 (roster_unique_iff _) example_roster_unique)).
Defined.

(** C2 as it is worded fails on the roster whose single entry lists
    192.0.2.7 twice: no two entries share anything, every other setting
    is valid, and validation returns the error for a reused address. *)
Lemma distinct_roster_does_not_validate :
  ~ distinct_roster_validates (example.conf [example.twice]) [example.twice].
Proof.
  unfold distinct_roster_validates. intros Hclaim.
  assert (Hrun : Config_Validate (example.conf [example.twice])
                 = Err (ErrClientDupIP "delta" 1 "192.0.2.7")) by computed.
  rewrite Hrun in Hclaim.
  enough (Hok : Err (ErrClientDupIP "delta" 1 "192.0.2.7")
                = Ok tt :> res ConfigError unit) by discriminate Hok.
  apply Hclaim.
  - all_pass.
  - discriminate.
  - exists "/etc/eldim/clients.yml". split; reflexivity.
  - discriminate.
  - repeat constructor.
  - intros i j ci cj Hij Hi Hj.
    destruct i as [|i]; [|destruct i; discriminate Hi].
    destruct j as [|j]; [|destruct j; discriminate Hj].
    contradiction.
Qed.

(** The roster whose single entry lists 192.0.2.7 twice does not
    validate. *)
Lemma address_twice_in_one_entry_witness :
  exists e, Config_Validate (example.conf [example.twice]) = Err e.
Proof.
  apply (proj1 (address_twice_in_one_entry
           (example.conf [example.twice])
           "/etc/eldim/clients.yml" [example.twice] eq_refl eq_refl)
           example.twice).
  - left.
  - apply (bool_decide_unpack _). vm_compute. exact I.
Defined.

(** * Further properties of the code *)

(** ** Which error a client entry gets *)

Lemma forEach_first {E A} (body : A -> res E unit) (pre : list A) (x : A)
      (post : list A) (e : E) :
  Forall (fun y => body y = Ok tt) pre -> body x = Err e ->
  forEach body (pre ++ x :: post) = Err e.
Proof.
  intros Hpre Hx. induction Hpre as [|y pre Hy _ IH]; cbn [app forEach].
  - rewrite Hx. reflexivity.
  - rewrite Hy. exact IH.
Qed.

Lemma forEach_any {E A} (body : A -> res E unit) (l : list A) (x : A) (e : E) :
  (forall y, body y = Ok tt \/ body y = Err e) ->
  x ∈ l -> body x = Err e -> forEach body l = Err e.
Proof.
  intros Hbody Hin Hx. induction l as [|y l IH]; [inversion Hin|].
  cbn [forEach]. destruct (Hbody y) as [Hy|Hy]; rewrite Hy; [|reflexivity].
  apply elem_of_cons in Hin. destruct Hin as [->|Hin]; [congruence|].
  exact (IH Hin).
Qed.

Lemma parse_loop_Ok (l : list string) :
  forEach (fun ip => failIf (isNil ip) ErrClientInvalidIP) (map net.ParseIP l)
  = Ok tt <-> forall a, a ∈ l -> net.ParseIP a <> [].
Proof.
  rewrite forEach_Ok, Forall_map, Forall_forall.
  split; intros Hall a Ha; specialize (Hall a Ha).
  - apply failIf_Ok, isNil_false in Hall. exact Hall.
  - apply failIf_Ok, isNil_false. exact Hall.
Qed.

Lemma v4_loop_Ok (l : list string) :
  forEach (fun v4 => failIf (negb (Contains (net.String v4) "."))
                            (ErrClientNonIPv4 (net.String v4)))
          (map net.ParseIP l)
  = Ok tt <-> forall a, a ∈ l -> Contains (canonical a) "." = true.
Proof.
  rewrite forEach_Ok, Forall_map, Forall_forall. unfold canonical.
  split; intros Hall a Ha; specialize (Hall a Ha).
  - apply failIf_Ok, negb_false_iff in Hall. exact Hall.
  - apply failIf_Ok, negb_false_iff. exact Hall.
Qed.

Lemma v6_loop_Ok (l : list string) :
  forEach (fun v6 => failIf (negb (Contains (net.String v6) ":")
                             || Contains (net.String v6) ".")
                            (ErrClientNonIPv6 (net.String v6)))
          (map net.ParseIP l)
  = Ok tt <->
  forall a, a ∈ l -> Contains (canonical a) ":" = true
                     /\ Contains (canonical a) "." = false.
Proof.
  rewrite forEach_Ok, Forall_map, Forall_forall. unfold canonical.
  split; intros Hall a Ha; specialize (Hall a Ha).
  - apply failIf_Ok, orb_false_iff in Hall.
    rewrite negb_false_iff in Hall. exact Hall.
  - apply failIf_Ok, orb_false_iff. rewrite negb_false_iff. exact Hall.
Qed.

(** The steps of [ClientConfig.Validate] one after the other: in [H], a
    statement that the function returns [e], find the step that did. *)
Ltac failing_step H :=
  unfold ClientConfig_Validate, ClientConfig_IPv4, ClientConfig_IPv6 in H;
  rewrite <- map_app in H;
  repeat (apply seq_Err in H;
          let Hok := fresh "Hok" in
          destruct H as [H | [Hok H]]; [try (other_error H)|]);
  try discriminate H.

(** X1: which error [ClientConfig.Validate] returns.  The error for an
    invalid address is returned exactly for a named entry with an address
    that does not parse; the error for missing credentials exactly for a
    named entry without password and without addresses; the errors for a
    short and for a long password exactly for an entry that passes all the
    address checks and has a non-empty password of less than 32 bytes,
    respectively a password of more than 128 bytes. *)
Theorem ClientConfig_Validate_errors (c : ClientConfig) :
  (ClientConfig_Validate c = Err ErrClientInvalidIP <->
     ClientName c <> ""
     /\ exists a, a ∈ IPv6Addr c ++ IPv4Addr c /\ net.ParseIP a = []) /\
  (ClientConfig_Validate c = Err ErrClientNoCredential <->
     ClientName c <> "" /\ Password c = ""
     /\ IPv4Addr c = [] /\ IPv6Addr c = []) /\
  (ClientConfig_Validate c = Err ErrClientPasswordShort <->
     ClientName c <> ""
     /\ (forall a, a ∈ IPv6Addr c ++ IPv4Addr c -> net.ParseIP a <> [])
     /\ families_respected c
     /\ Password c <> "" /\ (len (Password c) < 32)%nat) /\
  (ClientConfig_Validate c = Err ErrClientPasswordLong <->
     ClientName c <> ""
     /\ (forall a, a ∈ IPv6Addr c ++ IPv4Addr c -> net.ParseIP a <> [])
     /\ families_respected c
     /\ (128 < len (Password c))%nat).
Proof.
  assert (Hname : forall b : ClientConfig,
             failIf (bool_decide (ClientName b = "")) ErrClientNoName = Ok tt
             -> ClientName b <> "").
  { intros b Hb. apply failIf_Ok, bool_decide_eq_false in Hb. exact Hb. }
  assert (Hrun : ClientName c <> "" ->
             (forall a, a ∈ IPv6Addr c ++ IPv4Addr c -> net.ParseIP a <> []) ->
             families_respected c ->
             ClientConfig_Validate c
             = (failIf (bool_decide (Password c = "")
                        && (length (IPv4Addr c) =? 0)%nat
                        && (length (IPv6Addr c) =? 0)%nat)
                       ErrClientNoCredential ;;
                failIf ((len (Password c) <? 32)%nat
                        && negb (bool_decide (Password c = "")))
                       ErrClientPasswordShort ;;
                failIf (128 <? len (Password c))%nat ErrClientPasswordLong ;;
                Ok tt)).
  { intros Hn Hparse [Hv4 Hv6].
    unfold ClientConfig_Validate, ClientConfig_IPv4, ClientConfig_IPv6.
    rewrite <- map_app, !length_map.
    rewrite (bool_decide_eq_false_2 _ Hn). cbn [failIf bind].
    rewrite (proj2 (parse_loop_Ok _) Hparse). cbn [bind].
    rewrite (proj2 (v4_loop_Ok _) Hv4). cbn [bind].
    rewrite (proj2 (v6_loop_Ok _) Hv6). cbn [bind]. reflexivity. }
  split; [|split; [|split]]; split.
  - intros H. failing_step H. split; [exact (Hname _ Hok)|].
    apply forEach_Err in H. destruct H as (ip & Hin & Hip).
    apply list_elem_of_fmap in Hin. destruct Hin as (a & -> & Ha).
    apply failIf_Err in Hip. destruct Hip as [Hnil _].
    exists a. split; [exact Ha|]. destruct (net.ParseIP a); [reflexivity | discriminate].
  - intros (Hn & a & Ha & Hnil).
    unfold ClientConfig_Validate, ClientConfig_IPv4, ClientConfig_IPv6.
    rewrite <- map_app. rewrite (bool_decide_eq_false_2 _ Hn). cbn [failIf bind].
    rewrite (forEach_any _ _ (net.ParseIP a) ErrClientInvalidIP).
    + reflexivity.
    + intros y. destruct y; simpl; auto.
    + apply list_elem_of_fmap. exists a. auto.
    + rewrite Hnil. reflexivity.
  - intros H. failing_step H. split; [exact (Hname _ Hok)|].
    apply failIf_Err in H. destruct H as [Hb _].
    rewrite !andb_true_iff, bool_decide_eq_true, !length_map,
      !length_zero_iff in Hb. tauto.
  - intros (Hn & Hp & H4 & H6).
    unfold ClientConfig_Validate, ClientConfig_IPv4, ClientConfig_IPv6.
    rewrite H4, H6, Hp, (bool_decide_eq_false_2 _ Hn). reflexivity.
  - intros H. failing_step H. split; [exact (Hname _ Hok)|].
    pose proof (proj1 (parse_loop_Ok _) Hok0) as Hparse.
    pose proof (proj1 (v4_loop_Ok _) Hok1) as Hv4.
    pose proof (proj1 (v6_loop_Ok _) Hok2) as Hv6.
    apply failIf_Err in H. destruct H as [Hb _].
    rewrite andb_true_iff, negb_true_iff, bool_decide_eq_false, Nat.ltb_lt in Hb.
    unfold families_respected. tauto.
  - intros (Hn & Hparse & Hfam & Hp & Hlen).
    rewrite (Hrun Hn Hparse Hfam).
    rewrite (bool_decide_eq_false_2 _ Hp). cbn [andb negb failIf bind].
    apply Nat.ltb_lt in Hlen. rewrite Hlen. reflexivity.
  - intros H. failing_step H. split; [exact (Hname _ Hok)|].
    pose proof (proj1 (parse_loop_Ok _) Hok0) as Hparse.
    pose proof (proj1 (v4_loop_Ok _) Hok1) as Hv4.
    pose proof (proj1 (v6_loop_Ok _) Hok2) as Hv6.
    apply failIf_Err in H. destruct H as [Hb _]. apply Nat.ltb_lt in Hb.
    unfold families_respected. tauto.
  - intros (Hn & Hparse & Hfam & Hlen).
    rewrite (Hrun Hn Hparse Hfam).
    assert (Hp : Password c <> "").
    { intros Hp. rewrite Hp in Hlen. simpl in Hlen. lia. }
    rewrite (bool_decide_eq_false_2 _ Hp). cbn [andb negb failIf bind].
    assert (Hshort : (len (Password c) <? 32)%nat = false)
      by (apply Nat.ltb_ge; lia).
    rewrite Hshort. cbn [failIf bind].
    apply Nat.ltb_lt in Hlen. rewrite Hlen. reflexivity.
Qed.

(** ** [Name] called again *)

(** X2: [ClientConfig.Name] is idempotent, and on an entry that validates
    it is a pure accessor: it returns the configured name and leaves the
    entry as it is, so that the entry still validates. *)
Theorem ClientConfig_Name_idempotent (c : ClientConfig) :
  ClientConfig_Name (snd (ClientConfig_Name c)) = ClientConfig_Name c /\
  (ClientConfig_Validate c = Ok tt ->
     ClientConfig_Name c = (ClientName c, c)
     /\ ClientConfig_Validate (snd (ClientConfig_Name c)) = Ok tt).
Proof.
  split; [apply ClientConfig_Name_again|].
  intros Hv. pose proof Hv as Hn.
  apply ClientConfig_Validate_Ok in Hn. destruct Hn as (Hn & _).
  unfold ClientConfig_Name. rewrite (bool_decide_eq_false_2 _ Hn).
  split; [reflexivity | exact Hv].
Qed.

Lemma ClientConfig_Name_idempotent_witness :
  ClientConfig_Name example.alpha = ("alpha", example.alpha).
Proof.
  apply (proj2 (ClientConfig_Name_idempotent example.alpha)). reflexivity.
Defined.

(** ** The checks of [Config.Validate] one by one *)

Section FilesAndMemory.
Context `{Platform}.

Implicit Types (conf : Config).

Lemma checkTLSFiles_Ok conf :
  checkTLSFiles conf = Ok tt <->
  TLSChainPath conf <> "" /\ TLSKeyPath conf <> "" /\
  (exists f, os_Open (TLSChainPath conf) = Ok f /\ File_Close f = Ok tt) /\
  (exists f, os_Open (TLSKeyPath conf) = Ok f /\ File_Close f = Ok tt).
Proof.
  unfold checkTLSFiles. split.
  - intros Hchk.
    apply seq_Ok in Hchk. destruct Hchk as [Hchain Hchk].
    apply bind_Ok in Hchk. destruct Hchk as (f & Hopen & Hchk).
    apply seq_Ok in Hchk. destruct Hchk as [Hclose Hchk].
    apply seq_Ok in Hchk. destruct Hchk as [Hkey Hchk].
    apply bind_Ok in Hchk. destruct Hchk as (g & Hopen' & Hclose').
    apply failIf_Ok, bool_decide_eq_false in Hchain, Hkey.
    apply wrap_Ok in Hopen, Hclose, Hopen', Hclose'.
    eauto 10.
  - intros (Hchain & Hkey & (f & Hopen & Hclose) & (g & Hopen' & Hclose')).
    rewrite (bool_decide_eq_false_2 _ Hchain), (bool_decide_eq_false_2 _ Hkey).
    rewrite Hopen, Hopen'. cbn [failIf wrap bind].
    rewrite Hclose. cbn [wrap bind]. rewrite Hclose'. reflexivity.
Qed.

(** X3: the TLS files.  A configuration that validates names a chain file
    and a key file that open and close without error.  After a port in
    range, a missing chain path is reported first, then a chain file that
    does not open or close with the error of the file system, and only
    then, in the same order, the key file. *)
Theorem TLS_files_checked conf :
  (Config_Validate conf = Ok tt ->
     TLSChainPath conf <> "" /\ TLSKeyPath conf <> "" /\
     (exists f, os_Open (TLSChainPath conf) = Ok f /\ File_Close f = Ok tt) /\
     (exists f, os_Open (TLSKeyPath conf) = Ok f /\ File_Close f = Ok tt)) /\
  (passes conf [checkListenPort] ->
     (TLSChainPath conf = "" ->
        Config_Validate conf = Err ErrTLSChainRequired) /\
     (forall err,
         TLSChainPath conf <> "" -> os_Open (TLSChainPath conf) = Err err ->
         Config_Validate conf = Err (ErrTLSChainOpen err)) /\
     (forall f err,
         TLSChainPath conf <> "" -> os_Open (TLSChainPath conf) = Ok f ->
         File_Close f = Err err ->
         Config_Validate conf = Err (ErrTLSChainClose err)) /\
     (forall f,
         TLSChainPath conf <> "" -> os_Open (TLSChainPath conf) = Ok f ->
         File_Close f = Ok tt ->
         (TLSKeyPath conf = "" ->
            Config_Validate conf = Err ErrTLSKeyRequired) /\
         (forall err,
             TLSKeyPath conf <> "" -> os_Open (TLSKeyPath conf) = Err err ->
             Config_Validate conf = Err (ErrTLSKeyOpen err)) /\
         (forall g err,
             TLSKeyPath conf <> "" -> os_Open (TLSKeyPath conf) = Ok g ->
             File_Close g = Err err ->
             Config_Validate conf = Err (ErrTLSKeyClose err)))).
Proof.
  split.
  - intros Hv. apply Config_Validate_Ok in Hv.
    apply checkTLSFiles_Ok. exact (passes_lookup _ _ 1%nat _ Hv eq_refl).
  - intros Hport.
    assert (Hat : forall e, checkTLSFiles conf = Err e ->
                            Config_Validate conf = Err e).
    { intros e He.
      exact (Config_Validate_fails_at 1 _ conf e eq_refl He Hport). }
    unfold checkTLSFiles in Hat.
    split; [|split; [|split]].
    + intros Hchain. apply Hat. rewrite Hchain. reflexivity.
    + intros err Hchain Hopen. apply Hat.
      rewrite (bool_decide_eq_false_2 _ Hchain), Hopen. reflexivity.
    + intros f err Hchain Hopen Hclose. apply Hat.
      rewrite (bool_decide_eq_false_2 _ Hchain), Hopen. cbn [failIf wrap bind].
      rewrite Hclose. reflexivity.
    + intros f Hchain Hopen Hclose.
      rewrite (bool_decide_eq_false_2 _ Hchain), Hopen in Hat.
      cbn [failIf wrap bind] in Hat. rewrite Hclose in Hat.
      cbn [wrap bind] in Hat.
      split; [|split].
      * intros Hkey. apply Hat. rewrite Hkey. reflexivity.
      * intros err Hkey Hopen'. apply Hat.
        rewrite (bool_decide_eq_false_2 _ Hkey), Hopen'. reflexivity.
      * intros g err Hkey Hopen' Hclose'. apply Hat.
        rewrite (bool_decide_eq_false_2 _ Hkey), Hopen'. cbn [failIf wrap bind].
        rewrite Hclose'. reflexivity.
Qed.

(** X4: the upload-memory ceiling.  A configuration that validates has a
    positive [MaxUploadRAM]; zero and negative values make validation
    fail, with the error of this check when the earlier checks pass. *)
Theorem MaxUploadRAM_positive conf :
  (Config_Validate conf = Ok tt -> 0 < MaxUploadRAM conf) /\
  (MaxUploadRAM conf <= 0 ->
     (exists e, Config_Validate conf = Err e /\ (stage_of e <= 4)%nat) /\
     (passes conf (before_backend_count ++ [checkSomeBackend]) ->
        Config_Validate conf = Err ErrMaxUploadRAM)).
Proof.
  split.
  - intros Hv. apply Config_Validate_Ok in Hv.
    pose proof (passes_lookup _ _ 4%nat _ Hv eq_refl) as Hram.
    unfold checkMaxUploadRAM in Hram.
    apply failIf_Ok, Z.leb_gt in Hram. exact Hram.
  - intros Hle.
    assert (Hchk : checkMaxUploadRAM conf = Err ErrMaxUploadRAM).
    { unfold checkMaxUploadRAM. apply Z.leb_le in Hle. rewrite Hle.
      reflexivity. }
    split.
    + exact (Config_Validate_fails_if 4 _ conf _ eq_refl Hchk).
    + intros Hpass.
      exact (Config_Validate_fails_at 4 _ conf _ eq_refl Hchk Hpass).
Qed.

End FilesAndMemory.

(** ** Backends, one by one *)

Section Backends.
Context `{Platform}.

Implicit Types (conf : Config).

Lemma wrap_loop_Ok {A} (mk : A -> error -> ConfigError)
      (validate : A -> res error unit) (l : list A) :
  forEach (fun b => wrap (mk b) (validate b)) l = Ok tt
  <-> Forall (fun b => validate b = Ok tt) l.
Proof.
  rewrite forEach_Ok. apply Forall_iff. intros b. apply wrap_Ok.
Qed.

Lemma wrap_loop_first {A} (mk : A -> error -> ConfigError)
      (validate : A -> res error unit) (pre : list A) (b : A) (post : list A)
      (err : error) :
  Forall (fun b => validate b = Ok tt) pre -> validate b = Err err ->
  forEach (fun b => wrap (mk b) (validate b)) (pre ++ b :: post)
  = Err (mk b err).
Proof.
  intros Hpre Hb. apply forEach_first.
  - eapply Forall_impl; [exact Hpre|]. intros b' Hb'. rewrite Hb'. reflexivity.
  - rewrite Hb. reflexivity.
Qed.

(** X5: the backends are validated in the order Swift, GCS, S3, each list
    in configuration order, and the first one whose [Validate] fails is
    the one reported, by name and with its error, whatever the backends
    after it do.  A configuration that validates has only backends that
    validate. *)
Theorem first_failing_backend conf :
  (Config_Validate conf = Ok tt ->
     Forall (fun b => swift_Validate b = Ok tt) (SwiftBackends conf) /\
     Forall (fun b => gcs_Validate b = Ok tt) (GCSBackends conf) /\
     Forall (fun b => s3_Validate b = Ok tt) (S3Backends conf)) /\
  (passes conf [checkListenPort; checkTLSFiles] ->
     (forall pre b post err,
         SwiftBackends conf = pre ++ b :: post ->
         Forall (fun b => swift_Validate b = Ok tt) pre ->
         swift_Validate b = Err err ->
         Config_Validate conf = Err (ErrSwiftBackend (swift_Name b) err)) /\
     (forall pre b post err,
         Forall (fun b => swift_Validate b = Ok tt) (SwiftBackends conf) ->
         GCSBackends conf = pre ++ b :: post ->
         Forall (fun b => gcs_Validate b = Ok tt) pre ->
         gcs_Validate b = Err err ->
         Config_Validate conf = Err (ErrGCSBackend (gcs_Name b) err)) /\
     (forall pre b post err,
         Forall (fun b => swift_Validate b = Ok tt) (SwiftBackends conf) ->
         Forall (fun b => gcs_Validate b = Ok tt) (GCSBackends conf) ->
         S3Backends conf = pre ++ b :: post ->
         Forall (fun b => s3_Validate b = Ok tt) pre ->
         s3_Validate b = Err err ->
         Config_Validate conf = Err (ErrS3Backend (s3_Name b) err))).
Proof.
  split.
  - intros Hv. apply Config_Validate_Ok in Hv.
    pose proof (passes_lookup _ _ 2%nat _ Hv eq_refl) as Hchk.
    unfold checkEachBackend in Hchk.
    rewrite !seq_Ok, !wrap_loop_Ok in Hchk. exact Hchk.
  - intros Hpass.
    assert (Hat : forall e, checkEachBackend conf = Err e ->
                            Config_Validate conf = Err e).
    { intros e He.
      exact (Config_Validate_fails_at 2 _ conf e eq_refl He Hpass). }
    unfold checkEachBackend in Hat.
    split; [|split].
    + intros pre b post err Hlist Hpre Hb. apply Hat.
      rewrite Hlist, (wrap_loop_first _ _ pre b post err Hpre Hb). reflexivity.
    + intros pre b post err Hswift Hlist Hpre Hb. apply Hat.
      rewrite (proj2 (wrap_loop_Ok _ _ _) Hswift). cbn [bind].
      rewrite Hlist, (wrap_loop_first _ _ pre b post err Hpre Hb). reflexivity.
    + intros pre b post err Hswift Hgcs Hlist Hpre Hb. apply Hat.
      rewrite (proj2 (wrap_loop_Ok _ _ _) Hswift). cbn [bind].
      rewrite (proj2 (wrap_loop_Ok _ _ _) Hgcs). cbn [bind].
      rewrite Hlist, (wrap_loop_first _ _ pre b post err Hpre Hb). reflexivity.
Qed.

(** *** The backend clients *)

Context {backend_Client : Type}.
Context (swift_New : swift_BackendConfig -> backend_Client).
Context (gcs_New : gcs_BackendConfig -> backend_Client).
Context (s3_New : s3_BackendConfig -> backend_Client).

Lemma appendEach_map {A} (new : A -> backend_Client) (l : list A)
      (ret : list backend_Client) :
  appendEach new l ret = ret ++ map new l.
Proof.
  unfold appendEach. revert ret.
  induction l as [|x l IH]; intros ret; cbn [foldl map].
  - rewrite app_nil_r. reflexivity.
  - rewrite IH, <- app_assoc. reflexivity.
Qed.

(** X6: [Config.Clients] returns one client per configured backend: those
    of the Swift backends, then those of the GCS backends, then those of
    the S3 backends, each group in configuration order. *)
Theorem Config_Clients_order conf :
  Config_Clients swift_New gcs_New s3_New conf
  = map swift_New (SwiftBackends conf) ++ map gcs_New (GCSBackends conf)
    ++ map s3_New (S3Backends conf) /\
  length (Config_Clients swift_New gcs_New s3_New conf)
  = (length (SwiftBackends conf) + length (GCSBackends conf)
     + length (S3Backends conf))%nat.
Proof.
  assert (Heq : Config_Clients swift_New gcs_New s3_New conf
                = map swift_New (SwiftBackends conf)
                  ++ map gcs_New (GCSBackends conf)
                  ++ map s3_New (S3Backends conf)).
  { unfold Config_Clients. cbn zeta. rewrite !appendEach_map.
    rewrite app_nil_l, <- app_assoc. reflexivity. }
  split; [exact Heq|].
  rewrite Heq, !length_app, !length_map. lia.
Qed.

(** X7: a configuration that validates has a backend client: after
    [Config.Validate] succeeds, [Config.Clients] is not empty, and every
    client in it is that of a backend definition that validated. *)
Theorem Config_Clients_after_Validate conf :
  Config_Validate conf = Ok tt ->
  Config_Clients swift_New gcs_New s3_New conf <> [] /\
  forall cl, cl ∈ Config_Clients swift_New gcs_New s3_New conf ->
    (exists b, b ∈ SwiftBackends conf /\ swift_Validate b = Ok tt
               /\ cl = swift_New b)
    \/ (exists b, b ∈ GCSBackends conf /\ gcs_Validate b = Ok tt
                  /\ cl = gcs_New b)
    \/ (exists b, b ∈ S3Backends conf /\ s3_Validate b = Ok tt
                  /\ cl = s3_New b).
Proof.
  intros Hv.
  assert (Hlen : length (Config_Clients swift_New gcs_New s3_New conf)
                 <> 0%nat).
  { unfold Config_Clients. cbn zeta. rewrite !appendEach_map, app_nil_l.
    rewrite !length_app, !length_map.
    apply Config_Validate_Ok in Hv.
    pose proof (passes_lookup _ _ 3%nat _ Hv eq_refl) as Hsome.
    unfold checkSomeBackend in Hsome.
    apply failIf_Ok, Nat.eqb_neq in Hsome. lia. }
  split.
  - intros Hnil. rewrite Hnil in Hlen. apply Hlen. reflexivity.
  - intros cl Hcl.
    apply Config_Validate_Ok in Hv.
    pose proof (passes_lookup _ _ 2%nat _ Hv eq_refl) as Hchk.
    unfold checkEachBackend in Hchk.
    rewrite !seq_Ok, !wrap_loop_Ok, !Forall_forall in Hchk.
    destruct Hchk as (Hswift & Hgcs & Hs3).
    unfold Config_Clients in Hcl. cbn zeta in Hcl.
    rewrite !appendEach_map, app_nil_l in Hcl.
    rewrite !elem_of_app, !list_elem_of_fmap in Hcl.
    destruct Hcl as [[(b & -> & Hb) | (b & -> & Hb)] | (b & -> & Hb)];
      [left | right; left | right; right]; exists b; auto.
Qed.

End Backends.

(** ** The client file and its entries *)

Section ClientFile.
Context `{Platform}.

Implicit Types (conf : Config) (roster : list ClientConfig).

(** The loops of [Config.Validate] over the roster. *)
Lemma checkClients_loops conf fc roster :
  ClientFile conf <> "" ->
  ioutil_ReadFile (ClientFile conf) = Ok fc ->
  yaml_Unmarshal fc = Ok roster ->
  checkClients conf
  = (failIf (length roster =? 0)%nat ErrNoClients ;;
     forEachI (fun i c =>
                 match ClientConfig_Validate c with
                 | Ok _ => Ok tt
                 | Err err =>
                     Err (ErrClientInvalid (fst (ClientConfig_Name c))
                                           (i + 1) err)
                 end) 0 roster ;;
     dupLoop 0 roster (Seen ∅ ∅ ∅)).
Proof.
  intros Hfile Hread Hyaml. unfold checkClients.
  rewrite (bool_decide_eq_false_2 _ Hfile), Hread. cbn [failIf wrap bind].
  rewrite Hyaml. reflexivity.
Qed.

Lemma Config_Validate_at_clients conf e :
  passes conf before_clients -> checkClients conf = Err e ->
  Config_Validate conf = Err e.
Proof.
  intros Hpass He.
  exact (Config_Validate_fails_at 8 _ conf e eq_refl He Hpass).
Qed.

(** X8: the client file.  When the checks before the roster pass, a
    configuration without client file path, with a file that cannot be
    read, with a file that does not decode, or with a file that decodes to
    no entry at all fails validation, each with its own error, the errors
    of reading and decoding carrying the cause. *)
Theorem client_file_errors conf :
  passes conf before_clients ->
  (ClientFile conf = "" -> Config_Validate conf = Err ErrNoClientFile) /\
  (forall err,
      ClientFile conf <> "" ->
      ioutil_ReadFile (ClientFile conf) = Err err ->
      Config_Validate conf = Err (ErrClientFileOpen err)) /\
  (forall fc err,
      ClientFile conf <> "" ->
      ioutil_ReadFile (ClientFile conf) = Ok fc ->
      yaml_Unmarshal fc = Err err ->
      Config_Validate conf = Err (ErrClientFileYAML err)) /\
  (forall fc,
      ClientFile conf <> "" ->
      ioutil_ReadFile (ClientFile conf) = Ok fc ->
      yaml_Unmarshal fc = Ok [] ->
      Config_Validate conf = Err ErrNoClients).
Proof.
  intros Hpass. split; [|split; [|split]].
  - intros Hfile. apply (Config_Validate_at_clients _ _ Hpass).
    unfold checkClients. rewrite Hfile. reflexivity.
  - intros err Hfile Hread. apply (Config_Validate_at_clients _ _ Hpass).
    unfold checkClients.
    rewrite (bool_decide_eq_false_2 _ Hfile), Hread. reflexivity.
  - intros fc err Hfile Hread Hyaml.
    apply (Config_Validate_at_clients _ _ Hpass). unfold checkClients.
    rewrite (bool_decide_eq_false_2 _ Hfile), Hread. cbn [failIf wrap bind].
    rewrite Hyaml. reflexivity.
  - intros fc Hfile Hread Hyaml.
    apply (Config_Validate_at_clients _ _ Hpass).
    rewrite (checkClients_loops _ _ _ Hfile Hread Hyaml). reflexivity.
Qed.

Lemma validation_loop_first (pre : list ClientConfig) (c : ClientConfig)
      (post : list ClientConfig) (i : nat) (err : ClientError) :
  Forall (fun c => ClientConfig_Validate c = Ok tt) pre ->
  ClientConfig_Validate c = Err err ->
  forEachI (fun i c =>
              match ClientConfig_Validate c with
              | Ok _ => Ok tt
              | Err err =>
                  Err (ErrClientInvalid (fst (ClientConfig_Name c))
                                        (i + 1) err)
              end) i (pre ++ c :: post)
  = Err (ErrClientInvalid (name_of c) (i + length pre + 1) err).
Proof.
  intros Hpre Hc. revert i.
  induction Hpre as [|c' pre Hc' _ IH]; intros i; cbn [app forEachI length].
  - rewrite Hc, Nat.add_0_r. reflexivity.
  - rewrite Hc'. cbn [bind]. rewrite IH. do 2 f_equal. lia.
Qed.

Lemma validation_loop_Ok (roster : list ClientConfig) (i : nat) :
  Forall (fun c => ClientConfig_Validate c = Ok tt) roster ->
  forEachI (fun i c =>
              match ClientConfig_Validate c with
              | Ok _ => Ok tt
              | Err err =>
                  Err (ErrClientInvalid (fst (ClientConfig_Name c))
                                        (i + 1) err)
              end) i roster
  = Ok tt.
Proof.
  intros Hall. apply forEachI_Ok. intros k c Hk.
  rewrite Forall_lookup in Hall. rewrite (Hall k c Hk). reflexivity.
Qed.

(** X9: the first entry of the roster that does not validate is the one
    reported, with its position counted from one and the error of
    [ClientConfig.Validate], whatever the entries after it are and before
    any duplicate is looked for; an entry without a name is reported under
    the name "Unnamed Client". *)
Theorem first_invalid_client conf fc pre c post err :
  passes conf before_clients ->
  ClientFile conf <> "" ->
  ioutil_ReadFile (ClientFile conf) = Ok fc ->
  yaml_Unmarshal fc = Ok (pre ++ c :: post) ->
  Forall (fun c => ClientConfig_Validate c = Ok tt) pre ->
  ClientConfig_Validate c = Err err ->
  Config_Validate conf
  = Err (ErrClientInvalid (name_of c) (length pre + 1) err)
  /\ (ClientName c = "" ->
        name_of c = "Unnamed Client" /\ err = ErrClientNoName)
  /\ (ClientName c <> "" -> name_of c = ClientName c).
Proof.
  intros Hpass Hfile Hread Hyaml Hpre Hc. split; [|split].
  - apply (Config_Validate_at_clients _ _ Hpass).
    rewrite (checkClients_loops _ _ _ Hfile Hread Hyaml).
    assert (Hlen : (length (pre ++ c :: post) =? 0)%nat = false).
    { rewrite length_app. cbn [length]. apply Nat.eqb_neq. lia. }
    rewrite Hlen. cbn [failIf bind].
    rewrite (validation_loop_first pre c post 0 err Hpre Hc). reflexivity.
  - intros Hname. split.
    + unfold name_of, ClientConfig_Name.
      rewrite (bool_decide_eq_true_2 _ Hname). reflexivity.
    + apply ClientConfig_Validate_NoName in Hname. congruence.
  - intros Hname. unfold name_of, ClientConfig_Name.
    rewrite (bool_decide_eq_false_2 _ Hname). reflexivity.
Qed.

End ClientFile.

(** ** Which duplicate is reported *)

Section Duplicates.
Context `{Platform}.

Implicit Types (conf : Config) (roster : list ClientConfig).

(** Over entries without duplicates the loop runs on, having recorded
    their names, passwords and addresses. *)
Lemma dupLoop_prefix (pre rest : list ClientConfig) i st ln lp la :
  holds (nameSet st) ln -> holds (passSet st) lp -> holds (ipSet st) la ->
  NoDup (ln ++ map name_of pre) -> NoDup (lp ++ passwords pre) ->
  NoDup (la ++ all_addresses pre) ->
  exists st',
    holds (nameSet st') (ln ++ map name_of pre)
    /\ holds (passSet st') (lp ++ passwords pre)
    /\ holds (ipSet st') (la ++ all_addresses pre)
    /\ dupLoop i (pre ++ rest) st = dupLoop (i + length pre) rest st'.
Proof.
  revert i st ln lp la.
  induction pre as [|c pre IH]; intros i st ln lp la Hn Hp Ha Hnames Hpw Haddr.
  - exists st. unfold passwords, all_addresses. cbn [map concat app length].
    rewrite filter_nil, !app_nil_r, Nat.add_0_r. auto.
  - cbn [map] in Hnames. rewrite passwords_cons in Hpw.
    unfold all_addresses in Haddr. cbn [map concat] in Haddr.
    fold (all_addresses pre) in Haddr.
    change (name_of c :: map name_of pre)
      with ([name_of c] ++ map name_of pre) in Hnames.
    rewrite app_assoc in Hnames, Hpw, Haddr.
    pose proof (NoDup_app_l _ _ Hnames) as Hln'.
    pose proof (NoDup_app_l _ _ Hpw) as Hlp'.
    pose proof (NoDup_app_l _ _ Haddr) as Hla'.
    pose proof (dupCheck_spec i c st ln lp la Hn Hp Ha
                  (NoDup_app_l _ _ Hln') (NoDup_app_l _ _ Hlp')
                  (NoDup_app_l _ _ Hla')) as Hspec.
    cbn [app dupLoop length].
    destruct (dupCheck i c st) as [st1|e]; [|exfalso; apply Hspec; auto].
    destruct Hspec as ((Hn1 & Hp1 & Ha1) & _).
    destruct (IH (S i) st1 _ _ _ Hn1 Hp1 Ha1 Hnames Hpw Haddr)
      as (st' & Hn' & Hp' & Ha' & Hloop).
    exists st'. cbn [map bind]. rewrite passwords_cons.
    unfold all_addresses. cbn [map concat]. fold (all_addresses pre).
    change (name_of c :: map name_of pre)
      with ([name_of c] ++ map name_of pre).
    rewrite !app_assoc.
    split; [exact Hn'|]. split; [exact Hp'|]. split; [exact Ha'|].
    rewrite Hloop. f_equal. lia.
Qed.

Lemma name_of_valid_one (c : ClientConfig) :
  ClientConfig_Validate c = Ok tt -> name_of c = ClientName c.
Proof.
  intros Hc. apply ClientConfig_Validate_Ok in Hc. destruct Hc as (Hn & _).
  unfold name_of, ClientConfig_Name.
  rewrite (bool_decide_eq_false_2 _ Hn). reflexivity.
Qed.

(** After a prefix without duplicates, validation is decided by the body
    of the duplicate loop on the next entry. *)
Lemma Config_Validate_at_entry conf fc pre c post e :
  passes conf before_clients ->
  ClientFile conf <> "" ->
  ioutil_ReadFile (ClientFile conf) = Ok fc ->
  yaml_Unmarshal fc = Ok (pre ++ c :: post) ->
  Forall (fun c => ClientConfig_Validate c = Ok tt) (pre ++ c :: post) ->
  roster_unique pre ->
  (forall st,
      holds (nameSet st) (map ClientName pre) ->
      holds (passSet st) (passwords pre) ->
      holds (ipSet st) (all_addresses pre) ->
      dupCheck (length pre) c st = Err e) ->
  Config_Validate conf = Err e.
Proof.
  intros Hpass Hfile Hread Hyaml Hvalid (Hnames & Hpw & Haddr) Hbody.
  apply (Config_Validate_at_clients _ _ Hpass).
  rewrite (checkClients_loops _ _ _ Hfile Hread Hyaml).
  assert (Hlen : (length (pre ++ c :: post) =? 0)%nat = false).
  { rewrite length_app. cbn [length]. apply Nat.eqb_neq. lia. }
  rewrite Hlen, (validation_loop_Ok _ 0 Hvalid). cbn [failIf bind].
  apply Forall_app in Hvalid. destruct Hvalid as [Hpre _].
  rewrite <- (name_of_valid _ Hpre) in Hnames.
  destruct (dupLoop_prefix pre (c :: post) 0 (Seen ∅ ∅ ∅) [] [] []
              holds_empty holds_empty holds_empty Hnames Hpw Haddr)
    as (st' & Hn' & Hp' & Ha' & ->).
  cbn [app Nat.add] in *. rewrite (name_of_valid _ Hpre) in Hn'.
  cbn [dupLoop]. rewrite (Hbody st' Hn' Hp' Ha'). reflexivity.
Qed.

(** X10: a repeated name or password is reported at the later of the two
    entries, with its position counted from one.  After entries without
    duplicates, an entry whose name was already used gets the error for a
    name that is not unique, whatever its password and addresses; an entry
    with a new name and a non-empty password already used gets the error
    for a password that is not unique, whatever its addresses. *)
Theorem duplicate_reported_at_later_entry conf fc pre c post :
  passes conf before_clients ->
  ClientFile conf <> "" ->
  ioutil_ReadFile (ClientFile conf) = Ok fc ->
  yaml_Unmarshal fc = Ok (pre ++ c :: post) ->
  Forall (fun c => ClientConfig_Validate c = Ok tt) (pre ++ c :: post) ->
  roster_unique pre ->
  (ClientName c ∈ map ClientName pre ->
     Config_Validate conf
     = Err (ErrClientDupName (length pre + 1) (ClientName c))) /\
  (ClientName c ∉ map ClientName pre ->
   Password c <> "" -> Password c ∈ map Password pre ->
     Config_Validate conf
     = Err (ErrClientDupPassword (length pre + 1) (ClientName c))).
Proof.
  intros Hpass Hfile Hread Hyaml Hvalid Hu.
  assert (Hc : ClientConfig_Validate c = Ok tt).
  { apply Forall_app in Hvalid. destruct Hvalid as [_ Hc].
    apply Forall_cons in Hc. tauto. }
  pose proof Hc as Hcn. apply ClientConfig_Validate_Ok in Hcn.
  destruct Hcn as (Hcn & _).
  assert (Hname : ClientConfig_Name c = (ClientName c, c)).
  { unfold ClientConfig_Name. rewrite (bool_decide_eq_false_2 _ Hcn).
    reflexivity. }
  split.
  - intros Hdup.
    apply (Config_Validate_at_entry conf fc pre c post _
             Hpass Hfile Hread Hyaml Hvalid Hu).
    intros st Hn _ _. unfold dupCheck. rewrite Hname.
    apply Hn in Hdup. rewrite Hdup, Hname. reflexivity.
  - intros Hfresh Hne Hdup.
    apply (Config_Validate_at_entry conf fc pre c post _
             Hpass Hfile Hread Hyaml Hvalid Hu).
    intros st Hn Hp _. unfold dupCheck. rewrite Hname.
    apply (mapGet_holds _ _ _ Hn) in Hfresh. rewrite Hfresh, Hname.
    rewrite (bool_decide_eq_false_2 _ Hne). cbn [negb].
    assert (Hin : Password c ∈ passwords pre).
    { unfold passwords. apply list_elem_of_filter. auto. }
    apply Hp in Hin. rewrite Hin, Hname. reflexivity.
Qed.

Lemma dupIPs_first c i (ipre : list net.IP) (ip : net.IP)
      (ipost : list net.IP) m l :
  holds m l -> NoDup (l ++ map net.String ipre) ->
  net.String ip ∈ l ++ map net.String ipre ->
  dupIPs c i (ipre ++ ip :: ipost) m
  = Err (ErrClientDupIP (name_of c) (i + 1) (net.String ip)).
Proof.
  revert m l. induction ipre as [|x ipre IH]; intros m l Hm Hnd Hin;
    cbn [app map dupIPs] in *.
  - rewrite app_nil_r in Hin. apply Hm in Hin. rewrite Hin. reflexivity.
  - assert (Hx : net.String x ∉ l).
    { apply NoDup_app in Hnd. destruct Hnd as (_ & Hdisj & _).
      intros Hx. apply (Hdisj _ Hx). left. }
    apply (mapGet_holds _ _ _ Hm) in Hx. rewrite Hx.
    apply (IH _ (l ++ [net.String x])).
    + apply holds_mapSet. exact Hm.
    + rewrite <- app_assoc. exact Hnd.
    + rewrite <- app_assoc. exact Hin.
Qed.

(** X11: the address reported as reused is the first one, in the order
    IPv6 list then IPv4 list, that was already recorded, be it by an
    earlier entry or earlier in the same entry; the error names the entry
    in which it is found again and its position counted from one. *)
Theorem first_reused_address_reported conf fc pre c post apre a apost :
  passes conf before_clients ->
  ClientFile conf <> "" ->
  ioutil_ReadFile (ClientFile conf) = Ok fc ->
  yaml_Unmarshal fc = Ok (pre ++ c :: post) ->
  Forall (fun c => ClientConfig_Validate c = Ok tt) (pre ++ c :: post) ->
  roster_unique pre ->
  ClientName c ∉ map ClientName pre ->
  Password c ∉ passwords pre ->
  addresses c = apre ++ a :: apost ->
  NoDup (all_addresses pre ++ apre) ->
  a ∈ all_addresses pre ++ apre ->
  Config_Validate conf
  = Err (ErrClientDupIP (ClientName c) (length pre + 1) a).
Proof.
  intros Hpass Hfile Hread Hyaml Hvalid Hu Hfresh Hpwfresh Haddr Hnd Hin.
  assert (Hc : ClientConfig_Validate c = Ok tt).
  { apply Forall_app in Hvalid. destruct Hvalid as [_ Hc].
    apply Forall_cons in Hc. tauto. }
  pose proof (name_of_valid_one c Hc) as Hnc.
  pose proof Hc as Hcn. apply ClientConfig_Validate_Ok in Hcn.
  destruct Hcn as (Hcn & _).
  assert (Hname : ClientConfig_Name c = (ClientName c, c)).
  { unfold ClientConfig_Name. rewrite (bool_decide_eq_false_2 _ Hcn).
    reflexivity. }
  assert (Hsplit : exists ipre ip ipost,
             ClientConfig_IPv6 c ++ ClientConfig_IPv4 c = ipre ++ ip :: ipost
             /\ map net.String ipre = apre /\ net.String ip = a).
  { unfold addresses, canonical in Haddr.
    unfold ClientConfig_IPv6, ClientConfig_IPv4. rewrite <- map_app.
    rewrite <- map_map in Haddr.
    change (map net.String (map net.ParseIP (IPv6Addr c ++ IPv4Addr c)))
      with (net.String <$> (map net.ParseIP (IPv6Addr c ++ IPv4Addr c)))
      in Haddr.
    apply fmap_app_inv in Haddr.
    destruct Haddr as (ipre & rest & Hpre & Hrest & Heq).
    symmetry in Hrest. apply fmap_cons_inv in Hrest.
    destruct Hrest as (ip & ipost & Hip & _ & ->).
    exists ipre, ip, ipost. auto. }
  destruct Hsplit as (ipre & ip & ipost & Hips & <- & <-).
  apply (Config_Validate_at_entry conf fc pre c post _
           Hpass Hfile Hread Hyaml Hvalid Hu).
  intros st Hn Hp Ha. unfold dupCheck. rewrite Hname.
  apply (mapGet_holds _ _ _ Hn) in Hfresh. rewrite Hfresh, Hname.
  assert (Hstep : (if negb (bool_decide (Password c = ""))
                   then if mapGet (passSet st) (Password c)
                        then let '(name, _) := ClientConfig_Name c in
                             Err (ErrClientDupPassword (length pre + 1) name)
                        else Ok (mapSet (passSet st) (Password c))
                   else Ok (passSet st))
                  = Ok (if negb (bool_decide (Password c = ""))
                        then mapSet (passSet st) (Password c)
                        else passSet st)).
  { destruct (negb (bool_decide (Password c = ""))); [|reflexivity].
    apply (mapGet_holds _ _ _ Hp) in Hpwfresh. rewrite Hpwfresh. reflexivity. }
  rewrite Hstep. cbn [bind].
  rewrite Hips, (dupIPs_first c (length pre) ipre ip ipost _ _ Ha Hnd Hin).
  cbn [bind]. rewrite Hnc. reflexivity.
Qed.

End Duplicates.

(** ** The order of the metrics checks *)

Section MetricsOrder.
Context `{Platform}.

Implicit Types (conf : Config).

(** X12: with metrics enabled and the earlier checks passing, an empty
    user name is reported as missing and not as malformed, a malformed
    user name is reported before anything about the password, and an
    empty password is reported as missing and not as malformed. *)
Theorem prometheus_errors_in_order conf :
  passes conf before_prometheus ->
  PrometheusEnabled conf = true ->
  (PrometheusAuthUser conf = "" ->
     Config_Validate conf = Err ErrPrometheusUserMissing) /\
  (PrometheusAuthUser conf <> "" ->
   ~ matches_auth_pattern (PrometheusAuthUser conf) ->
     Config_Validate conf = Err ErrPrometheusUserPattern) /\
  (matches_auth_pattern (PrometheusAuthUser conf) ->
   PrometheusAuthPass conf = "" ->
     Config_Validate conf = Err ErrPrometheusPassMissing) /\
  (matches_auth_pattern (PrometheusAuthUser conf) ->
   PrometheusAuthPass conf <> "" ->
   ~ matches_auth_pattern (PrometheusAuthPass conf) ->
     Config_Validate conf = Err ErrPrometheusPassPattern).
Proof.
  intros Hpass Hon.
  assert (Hat : forall e, checkPrometheus conf = Err e ->
                          Config_Validate conf = Err e).
  { intros e He.
    exact (Config_Validate_fails_at 7 _ conf e eq_refl He Hpass). }
  unfold checkPrometheus in Hat. rewrite Hon in Hat.
  assert (Hno : forall s, ~ matches_auth_pattern s -> matchAuth s = false).
  { intros s Hs. destruct (matchAuth s) eqn:Hm; [|reflexivity].
    apply matchAuth_spec in Hm. contradiction. }
  assert (Hne : forall s, matches_auth_pattern s -> s <> "").
  { intros s [Hlen _] ->. simpl in Hlen. lia. }
  split; [|split; [|split]].
  - intros Hu. apply Hat. rewrite Hu. reflexivity.
  - intros Hu Hbad. apply Hat.
    rewrite (bool_decide_eq_false_2 _ Hu), (Hno _ Hbad). reflexivity.
  - intros Hgood Hp. apply Hat.
    rewrite (bool_decide_eq_false_2 _ (Hne _ Hgood)).
    rewrite (proj2 (matchAuth_spec _) Hgood), Hp. reflexivity.
  - intros Hgood Hp Hbad. apply Hat.
    rewrite (bool_decide_eq_false_2 _ (Hne _ Hgood)).
    rewrite (proj2 (matchAuth_spec _) Hgood).
    rewrite (bool_decide_eq_false_2 _ Hp), (Hno _ Hbad). reflexivity.
Qed.

End MetricsOrder.

(** ** Reordering and removing entries *)

Lemma all_addresses_cons (c : ClientConfig) (roster : list ClientConfig) :
  all_addresses (c :: roster) = addresses c ++ all_addresses roster.
Proof. reflexivity. Qed.

Lemma roster_unique_Permutation (r r' : list ClientConfig) :
  r ≡ₚ r' -> roster_unique r -> roster_unique r'.
Proof.
  intros Hperm (Hn & Hp & Ha).
  assert (Hnames : map ClientName r ≡ₚ map ClientName r')
    by (apply Permutation_map; exact Hperm).
  assert (Hpw : passwords r ≡ₚ passwords r').
  { unfold passwords. apply filter_Permutation.
    apply Permutation_map. exact Hperm. }
  assert (Haddr : all_addresses r ≡ₚ all_addresses r').
  { clear -Hperm. induction Hperm as [|x l l' _ IH|x y l|l l' l'' _ IH1 _ IH2].
    - reflexivity.
    - rewrite !all_addresses_cons. apply Permutation_app_head. exact IH.
    - rewrite !all_addresses_cons, !app_assoc.
      apply Permutation_app_tail, Permutation_app_comm.
    - etransitivity; eassumption. }
  unfold roster_unique.
  rewrite <- Hnames, <- Hpw, <- Haddr. auto.
Qed.

Lemma roster_unique_sublist (r r' : list ClientConfig) :
  r' `sublist_of` r -> roster_unique r -> roster_unique r'.
Proof.
  intros Hsub (Hn & Hp & Ha).
  assert (Hnames : map ClientName r' `sublist_of` map ClientName r).
  { clear -Hsub. induction Hsub; cbn [map]; constructor; assumption. }
  assert (Hpw : passwords r' `sublist_of` passwords r).
  { clear -Hsub. induction Hsub as [|x l l' _ IH|x l l' _ IH].
    - reflexivity.
    - rewrite !passwords_cons. apply sublist_app; [reflexivity | exact IH].
    - rewrite passwords_cons. apply sublist_inserts_l. exact IH. }
  assert (Haddr : all_addresses r' `sublist_of` all_addresses r).
  { clear -Hsub. induction Hsub as [|x l l' _ IH|x l l' _ IH].
    - reflexivity.
    - rewrite !all_addresses_cons. apply sublist_app; [reflexivity | exact IH].
    - rewrite all_addresses_cons. apply sublist_inserts_l. exact IH. }
  unfold roster_unique.
  split; [exact (sublist_NoDup _ _ Hn Hnames)|].
  split; [exact (sublist_NoDup _ _ Hp Hpw) | exact (sublist_NoDup _ _ Ha Haddr)].
Qed.

Section Reordering.
Context `{Platform}.

Implicit Types (conf : Config) (roster : list ClientConfig).

(** After the checks before the roster, validation is the roster's. *)
Lemma Config_Validate_roster conf fc roster :
  passes conf before_clients ->
  ClientFile conf <> "" ->
  ioutil_ReadFile (ClientFile conf) = Ok fc ->
  yaml_Unmarshal fc = Ok roster ->
  Config_Validate conf = Ok tt <->
  roster <> [] /\ Forall (fun c => ClientConfig_Validate c = Ok tt) roster
  /\ roster_unique roster.
Proof.
  intros Hpass Hfile Hread Hyaml. rewrite Config_Validate_Ok.
  change documented_order with (before_clients ++ [checkClients]).
  unfold passes at 1. rewrite Forall_app, Forall_singleton, checkClients_Ok.
  split.
  - intros (_ & _ & fc' & roster' & Hread' & Hyaml' & Hrest).
    rewrite Hread in Hread'. injection Hread' as <-.
    rewrite Hyaml in Hyaml'. injection Hyaml' as <-. exact Hrest.
  - intros Hrest. split; [exact Hpass|]. split; [exact Hfile|].
    exists fc, roster. auto.
Qed.

(** X13: the order of the entries of the client file does not matter for
    whether the configuration validates: two configurations that pass
    the checks before the roster and whose rosters are permutations of
    each other both validate or both fail. *)
Theorem roster_order_irrelevant conf conf' fc fc' roster roster' :
  passes conf before_clients -> passes conf' before_clients ->
  ClientFile conf <> "" -> ClientFile conf' <> "" ->
  ioutil_ReadFile (ClientFile conf) = Ok fc ->
  yaml_Unmarshal fc = Ok roster ->
  ioutil_ReadFile (ClientFile conf') = Ok fc' ->
  yaml_Unmarshal fc' = Ok roster' ->
  roster ≡ₚ roster' ->
  Config_Validate conf = Ok tt <-> Config_Validate conf' = Ok tt.
Proof.
  intros Hpass Hpass' Hfile Hfile' Hread Hyaml Hread' Hyaml' Hperm.
  rewrite (Config_Validate_roster _ _ _ Hpass Hfile Hread Hyaml).
  rewrite (Config_Validate_roster _ _ _ Hpass' Hfile' Hread' Hyaml').
  assert (Hone : forall r r' : list ClientConfig,
             r ≡ₚ r' ->
             r <> [] /\ Forall (fun c => ClientConfig_Validate c = Ok tt) r
             /\ roster_unique r ->
             r' <> [] /\ Forall (fun c => ClientConfig_Validate c = Ok tt) r'
             /\ roster_unique r').
  { intros r r' Hp (Hne & Hvalid & Hu). split; [|split].
    - intros ->. apply Permutation_nil_r in Hp. contradiction.
    - rewrite <- Hp. exact Hvalid.
    - exact (roster_unique_Permutation _ _ Hp Hu). }
  split; apply Hone; [exact Hperm | symmetry; exact Hperm].
Qed.

(** X14: removing entries from the client file keeps a valid
    configuration valid, as long as an entry is left: if a configuration
    validates, so does one that passes the checks before the roster and
    whose roster is a non-empty sublist of the first one's. *)
Theorem roster_entries_removable conf conf' fc fc' roster roster' :
  passes conf before_clients -> passes conf' before_clients ->
  ClientFile conf <> "" -> ClientFile conf' <> "" ->
  ioutil_ReadFile (ClientFile conf) = Ok fc ->
  yaml_Unmarshal fc = Ok roster ->
  ioutil_ReadFile (ClientFile conf') = Ok fc' ->
  yaml_Unmarshal fc' = Ok roster' ->
  roster' `sublist_of` roster -> roster' <> [] ->
  Config_Validate conf = Ok tt -> Config_Validate conf' = Ok tt.
Proof.
  intros Hpass Hpass' Hfile Hfile' Hread Hyaml Hread' Hyaml' Hsub Hne.
  rewrite (Config_Validate_roster _ _ _ Hpass Hfile Hread Hyaml).
  rewrite (Config_Validate_roster _ _ _ Hpass' Hfile' Hread' Hyaml').
  intros (_ & Hvalid & Hu). split; [exact Hne|]. split.
  - apply Forall_forall. intros c Hc.
    rewrite Forall_forall in Hvalid. apply Hvalid.
    eapply sublist_subseteq; eassumption.
  - exact (roster_unique_sublist _ _ Hsub Hu).
Qed.

End Reordering.

(** ** Recipients, one by one *)

Section Recipients.
Context `{Platform}.

Implicit Types (conf : Config).

(** X15: the recipients are parsed in the order of the configuration,
    the [age-id] entries before the [age-ssh] entries, and the first one
    that does not parse is the one reported, with its text and the error
    of the parser, whatever the recipients after it are. *)
Theorem first_failing_recipient conf :
  passes conf before_recipients ->
  (forall pre r post err,
      Encryption_AgeID conf = pre ++ r :: post ->
      Forall (fun r => age_ParseX25519Recipient r = Ok tt) pre ->
      age_ParseX25519Recipient r = Err err ->
      Config_Validate conf = Err (ErrAgeID r err)) /\
  (forall pre r post err,
      Forall (fun r => age_ParseX25519Recipient r = Ok tt)
             (Encryption_AgeID conf) ->
      Encryption_AgeSSH conf = pre ++ r :: post ->
      Forall (fun r => agessh_ParseRecipient r = Ok tt) pre ->
      agessh_ParseRecipient r = Err err ->
      Config_Validate conf = Err (ErrAgeSSH r err)).
Proof.
  intros Hpass.
  assert (Hat : forall e, checkRecipients conf = Err e ->
                          Config_Validate conf = Err e).
  { intros e He.
    exact (Config_Validate_fails_at 6 _ conf e eq_refl He Hpass). }
  unfold checkRecipients in Hat.
  assert (Hsome : forall (l1 l2 pre post : list string) (r : string),
             l1 = pre ++ r :: post \/ l2 = pre ++ r :: post ->
             (length l1 + length l2 =? 0)%nat = false).
  { intros l1 l2 pre post r [-> | ->]; apply Nat.eqb_neq;
      rewrite length_app; cbn [length]; lia. }
  split.
  - intros pre r post err Hlist Hpre Hr. apply Hat.
    rewrite (Hsome _ _ pre post r (or_introl Hlist)). cbn [failIf bind].
    rewrite Hlist, (wrap_loop_first _ _ pre r post err Hpre Hr). reflexivity.
  - intros pre r post err Hid Hlist Hpre Hr. apply Hat.
    rewrite (Hsome _ _ pre post r (or_intror Hlist)). cbn [failIf bind].
    rewrite (proj2 (wrap_loop_Ok _ _ _) Hid). cbn [bind].
    rewrite Hlist, (wrap_loop_first _ _ pre r post err Hpre Hr). reflexivity.
Qed.

End Recipients.

(** ** What the address-family tests accept *)

Lemma chars_app (s t : string) :
  list_ascii_of_string (s +:+ t)
  = list_ascii_of_string s ++ list_ascii_of_string t.
Proof.
  induction s as [|c s IH]; simpl; [reflexivity | f_equal; exact IH].
Qed.

Lemma Contains_char (s : string) (c : ascii) :
  Contains s (String c EmptyString) = true <-> c ∈ list_ascii_of_string s.
Proof.
  induction s as [|d s IH]; simpl.
  - split; [discriminate | intros Hin; inversion Hin].
  - assert (Hempty : HasPrefix s "" = true) by (destruct s; reflexivity).
    rewrite Hempty, orb_true_iff, IH, elem_of_cons, andb_true_r,
      bool_decide_eq_true.
    reflexivity.
Qed.

Lemma Contains_char_false (s : string) (c : ascii) :
  Contains s (String c EmptyString) = false <-> c ∉ list_ascii_of_string s.
Proof.
  rewrite <- Contains_char.
  destruct (Contains s (String c EmptyString)); split; congruence.
Qed.

(** *** [ParseIP] returns nil or sixteen bytes *)

Lemma downto_length hi lo body (ip : list Z) :
  (forall ip j, length (body ip j) = length ip) ->
  length (net.downto hi lo body ip) = length ip.
Proof.
  intros Hbody. unfold net.downto.
  generalize (rev (seq (Z.to_nat lo) (Z.to_nat (hi - lo + 1)))).
  intros js. revert ip. induction js as [|j js IH]; intros ip; cbn [foldl].
  - reflexivity.
  - rewrite IH. apply Hbody.
Qed.

Lemma parseIPv4_length (s : string) :
  net.parseIPv4 s = [] \/ length (net.parseIPv4 s) = 16%nat.
Proof.
  unfold net.parseIPv4.
  destruct (net.parseIPv4_loop _ _ _ _) as [[s' p]|]; [|left; reflexivity].
  destruct (negb (isEmpty s')); [left | right]; reflexivity.
Qed.

Lemma parseIPv6_loop_length fuel st st' :
  net.parseIPv6_loop fuel st = Some st' ->
  length (net.v6_ip st) = 16%nat -> length (net.v6_ip st') = 16%nat.
Proof.
  revert st. induction fuel as [|fuel IH]; intros st H Hlen;
    cbn [net.parseIPv6_loop] in H.
  - injection H as <-. exact Hlen.
  - destruct st as [s i ellipsis ip]. cbn [net.v6_ip] in Hlen.
    destruct (net.xtoi s) as [[n c] ok].
    repeat match type of H with
           | context [if ?b then _ else _] => destruct b
           | context [match ?x with [] => _ | _ :: _ => _ end] =>
               destruct x
           end;
      try discriminate H;
      try (injection H as <-; cbn [net.v6_ip];
           rewrite ?length_insert; exact Hlen);
      try (apply IH in H; [exact H|]; cbn [net.v6_ip];
           rewrite ?length_insert; exact Hlen).
Qed.

Lemma parseIPv6_length (s : string) :
  net.parseIPv6 s = [] \/ length (net.parseIPv6 s) = 16%nat.
Proof.
  unfold net.parseIPv6. cbn zeta.
  destruct (_ && isEmpty _); [right; reflexivity|].
  destruct (net.parseIPv6_loop _ _) as [[s' i ellipsis ip]|] eqn:Hloop;
    [|left; reflexivity].
  apply parseIPv6_loop_length in Hloop; [|reflexivity].
  cbn [net.v6_ip] in Hloop.
  repeat match goal with
         | |- context [if ?b then _ else _] => destruct b
         end; try (left; reflexivity); right; [|exact Hloop].
  rewrite !downto_length; [exact Hloop | |];
    intros ip' j; apply length_insert.
Qed.

Lemma ParseIP_length (a : string) :
  net.ParseIP a <> [] -> length (net.ParseIP a) = 16%nat.
Proof.
  unfold net.ParseIP.
  assert (Hscan : forall s rest,
             net.ParseIP_scan s rest <> [] ->
             length (net.ParseIP_scan s rest) = 16%nat).
  { intros s rest. induction rest as [|c rest IH]; cbn [net.ParseIP_scan].
    - intros Hne. exfalso. apply Hne. reflexivity.
    - destruct (bool_decide (c = "."%char)).
      { intros Hne. destruct (parseIPv4_length s); [contradiction | assumption]. }
      destruct (bool_decide (c = ":"%char)).
      { intros Hne. destruct (parseIPv6_length s); [contradiction | assumption]. }
      exact IH. }
  apply Hscan.
Qed.

(** *** What [String] prints *)

Lemma get_chars (s : string) (n : nat) (c : ascii) :
  String.get n s = Some c -> c ∈ list_ascii_of_string s.
Proof.
  revert n. induction s as [|d s IH]; intros n; simpl; [discriminate|].
  destruct n as [|n].
  - intros [= ->]. left.
  - intros Hget. right. exact (IH n Hget).
Qed.

Lemma hexChar_chars (v : Z) (c : ascii) :
  c ∈ list_ascii_of_string (net.hexChar v) -> c ∈ groupChars.
Proof.
  unfold net.hexChar.
  destruct (String.get (Z.to_nat v) net.hexDigit) as [d|] eqn:Hget; simpl.
  - intros Hc. apply list_elem_of_singleton in Hc. subst c.
    apply get_chars in Hget.
    change groupChars
      with (list_ascii_of_string net.hexDigit ++ [":"%char]).
    apply elem_of_app. left. exact Hget.
  - intros Hc. inversion Hc.
Qed.

Lemma appendHex_chars (b : string) (v : Z) (c : ascii) :
  c ∈ list_ascii_of_string (net.appendHex b v) ->
  c ∈ list_ascii_of_string b \/ c ∈ groupChars.
Proof.
  unfold net.appendHex. destruct (v =? 0).
  - rewrite chars_app, elem_of_app. intros [Hc|Hc]; [left; exact Hc|].
    right. apply list_elem_of_singleton in Hc. subst c.
    apply (bool_decide_unpack _). vm_compute. exact I.
  - generalize [7; 6; 5; 4; 3; 2; 1; 0]%nat. intros js. revert b.
    induction js as [|j js IH]; intros b; cbn [foldl]; [auto|].
    intros Hc. apply IH in Hc. destruct Hc as [Hc|Hc]; [|right; exact Hc].
    destruct (0 <? Z.shiftr v (Z.of_nat j * 4)); [|left; exact Hc].
    rewrite chars_app, elem_of_app in Hc. destruct Hc as [Hc|Hc];
      [left; exact Hc | right; exact (hexChar_chars _ _ Hc)].
Qed.

Lemma appendHex_keeps (b : string) (v : Z) (c : ascii) :
  c ∈ list_ascii_of_string b -> c ∈ list_ascii_of_string (net.appendHex b v).
Proof.
  unfold net.appendHex. destruct (v =? 0).
  - rewrite chars_app, elem_of_app. auto.
  - generalize [7; 6; 5; 4; 3; 2; 1; 0]%nat. intros js. revert b.
    induction js as [|j js IH]; intros b; cbn [foldl]; [auto|].
    intros Hc. apply IH.
    destruct (0 <? Z.shiftr v (Z.of_nat j * 4)); [|exact Hc].
    rewrite chars_app, elem_of_app. auto.
Qed.

Lemma printGroups_step fuel p e0 e1 i b :
  net.printGroups (S fuel) p e0 e1 i b
  = if negb (i <? net.IPv6len)%nat then b
    else if Z.of_nat i =? e0 then
      if (net.IPv6len <=? Z.to_nat e1)%nat then b +:+ "::"
      else
        net.printGroups fuel p e0 e1 (Z.to_nat e1 + 2)
          (net.appendHex (b +:+ "::")
             (Z.lor (Z.shiftl (net.at_ p (Z.to_nat e1)) 8)
                    (net.at_ p (Z.to_nat e1 + 1))))
    else
      net.printGroups fuel p e0 e1 (i + 2)
        (net.appendHex (if (0 <? i)%nat then b +:+ ":" else b)
           (Z.lor (Z.shiftl (net.at_ p i) 8) (net.at_ p (i + 1)))).
Proof. reflexivity. Qed.

Lemma printGroups_chars fuel p e0 e1 i b c :
  c ∈ list_ascii_of_string (net.printGroups fuel p e0 e1 i b) ->
  c ∈ list_ascii_of_string b \/ c ∈ groupChars.
Proof.
  assert (Hcolon : forall t n, c ∈ list_ascii_of_string (t +:+ String ":" n)
                     -> (forall d, d ∈ list_ascii_of_string n -> d = ":"%char)
                     -> c ∈ list_ascii_of_string t \/ c ∈ groupChars).
  { intros t n Hc Hn. rewrite chars_app, elem_of_app in Hc.
    destruct Hc as [Hc|Hc]; [left; exact Hc | right].
    assert (c = ":"%char) as ->.
    { simpl in Hc. apply elem_of_cons in Hc. destruct Hc as [Hc|Hc]; auto. }
    apply (bool_decide_unpack _). vm_compute. exact I. }
  revert i b. induction fuel as [|fuel IH]; intros i b; [simpl; auto|].
  rewrite printGroups_step.
  destruct (negb (i <? net.IPv6len)%nat); [auto|].
  destruct (Z.of_nat i =? e0).
  - destruct (net.IPv6len <=? Z.to_nat e1)%nat.
    + intros Hc. apply (Hcolon b ":" Hc).
      intros d Hd. apply list_elem_of_singleton in Hd. exact Hd.
    + intros Hc. apply IH in Hc. destruct Hc as [Hc|Hc]; [|auto].
      apply appendHex_chars in Hc. destruct Hc as [Hc|Hc]; [|auto].
      apply (Hcolon b ":" Hc).
      intros d Hd. apply list_elem_of_singleton in Hd. exact Hd.
  - intros Hc. apply IH in Hc. destruct Hc as [Hc|Hc]; [|auto].
    apply appendHex_chars in Hc. destruct Hc as [Hc|Hc]; [|auto].
    destruct (0 <? i)%nat; [|auto].
    apply (Hcolon b "" Hc). intros d Hd. inversion Hd.
Qed.

Lemma printGroups_keeps fuel p e0 e1 i b c :
  c ∈ list_ascii_of_string b ->
  c ∈ list_ascii_of_string (net.printGroups fuel p e0 e1 i b).
Proof.
  revert i b. induction fuel as [|fuel IH]; intros i b Hc; [exact Hc|].
  rewrite printGroups_step.
  destruct (negb (i <? net.IPv6len)%nat); [exact Hc|].
  destruct (Z.of_nat i =? e0).
  - destruct (net.IPv6len <=? Z.to_nat e1)%nat.
    + rewrite chars_app, elem_of_app. auto.
    + apply IH, appendHex_keeps. rewrite chars_app, elem_of_app. auto.
  - apply IH, appendHex_keeps.
    destruct (0 <? i)%nat; [|exact Hc].
    rewrite chars_app, elem_of_app. auto.
Qed.

(** The text of the groups has a colon, by the second group at the
    latest. *)
Lemma printGroups_colon fuel p e0 e1 :
  ":"%char ∈ list_ascii_of_string
               (net.printGroups (S (S fuel)) p e0 e1 0 EmptyString).
Proof.
  rewrite printGroups_step.
  change (negb (0 <? net.IPv6len)%nat) with false.
  change (0 <? 0)%nat with false. cbv iota.
  destruct (Z.of_nat 0 =? e0).
  - destruct (net.IPv6len <=? Z.to_nat e1)%nat.
    + simpl. left.
    + apply printGroups_keeps, appendHex_keeps. simpl. left.
  - change (0 + 2)%nat with 2%nat. rewrite printGroups_step.
    change (negb (2 <? net.IPv6len)%nat) with false.
    change (0 <? 2)%nat with true. cbv iota.
    destruct (Z.of_nat 2 =? e0).
    + destruct (net.IPv6len <=? Z.to_nat e1)%nat.
      * rewrite chars_app, elem_of_app. right. left.
      * apply printGroups_keeps, appendHex_keeps.
        rewrite chars_app, elem_of_app. right. left.
    + apply printGroups_keeps, appendHex_keeps.
      rewrite chars_app, elem_of_app. right. left.
Qed.

Lemma To4_sixteen (ip : list Z) :
  length ip = 16%nat ->
  net.To4 ip = [] \/ length (net.To4 ip) = 4%nat.
Proof.
  intros Hlen. unfold net.To4. rewrite Hlen. cbn [Nat.eqb net.IPv4len].
  destruct (_ && _); [right | left; reflexivity].
  rewrite length_take, length_drop, Hlen. reflexivity.
Qed.

(** An address of sixteen bytes prints with a dot exactly when it is an
    IPv4 address, and otherwise with a colon and without a dot. *)
Lemma String_sixteen (ip : list Z) :
  length ip = 16%nat ->
  (net.To4 ip <> [] -> Contains (net.String ip) "." = true) /\
  (net.To4 ip = [] ->
   Contains (net.String ip) ":" = true
   /\ Contains (net.String ip) "." = false).
Proof.
  intros Hlen. unfold net.String. rewrite Hlen.
  cbn [Nat.eqb negb net.IPv6len].
  destruct (To4_sixteen ip Hlen) as [Hnil|Hfour].
  - rewrite Hnil. cbn [length Nat.eqb net.IPv4len].
    split; [intros Hne; contradiction|]. intros _.
    destruct (net.longestRun 8 ip 0 (-1) (-1)) as [e0 e1].
    destruct (if e1 - e0 <=? 2 then (-1, -1) else (e0, e1)) as [f0 f1].
    split.
    + apply Contains_char. apply printGroups_colon.
    + apply Contains_char_false. intros Hdot.
      apply printGroups_chars in Hdot. destruct Hdot as [Hdot|Hdot].
      * inversion Hdot.
      * revert Hdot. apply (bool_decide_unpack _). vm_compute. exact I.
  - rewrite Hfour. cbn [Nat.eqb net.IPv4len].
    split; [|intros Hnil; rewrite Hnil in Hfour; discriminate].
    intros _. apply Contains_char.
    rewrite chars_app, elem_of_app. right.
    rewrite chars_app, elem_of_app. left. left.
Qed.

(** X16: what the family tests of [ClientConfig.Validate] accept.  For
    an entry whose addresses all parse, the tests on the printed forms
    succeed exactly when every address of the IPv4 list is an IPv4
    address, which includes the IPv4-mapped IPv6 literals, and no address
    of the IPv6 list is one. *)
Theorem family_tests_decide_the_family (c : ClientConfig) :
  (forall a, a ∈ IPv6Addr c ++ IPv4Addr c -> net.ParseIP a <> []) ->
  families_respected c <->
  (forall a, a ∈ IPv4Addr c -> net.To4 (net.ParseIP a) <> []) /\
  (forall a, a ∈ IPv6Addr c -> net.To4 (net.ParseIP a) = []).
Proof.
  intros Hparse.
  assert (Hone : forall a, a ∈ IPv6Addr c ++ IPv4Addr c ->
             (Contains (canonical a) "." = true
              <-> net.To4 (net.ParseIP a) <> []) /\
             (Contains (canonical a) ":" = true
              /\ Contains (canonical a) "." = false
              <-> net.To4 (net.ParseIP a) = [])).
  { intros a Ha. unfold canonical.
    pose proof (String_sixteen _ (ParseIP_length a (Hparse a Ha)))
      as [Hv4 Hv6].
    destruct (decide (net.To4 (net.ParseIP a) = [])) as [Hnil|Hne].
    - destruct (Hv6 Hnil) as [Hcolon Hdot]. rewrite Hcolon, Hdot.
      intuition congruence.
    - rewrite (Hv4 Hne). intuition congruence. }
  unfold families_respected. split.
  - intros [Hv4 Hv6]. split; intros a Ha.
    + apply Hone; [apply elem_of_app; auto | exact (Hv4 a Ha)].
    + apply Hone; [apply elem_of_app; auto | exact (Hv6 a Ha)].
  - intros [Hv4 Hv6]. split; intros a Ha.
    + apply Hone; [apply elem_of_app; auto | exact (Hv4 a Ha)].
    + apply Hone; [apply elem_of_app; auto | exact (Hv6 a Ha)].
Qed.

(** * The further properties on the concrete installation *)

Lemma TLS_files_checked_witness :
  Config_Validate
    (example.settings "/etc/eldim/fullchain.pem" "/etc/eldim/missing.pem"
       "/etc/eldim/clients.yml" 100 [] [] [example.offsite] [example.alpha])
  = Err (ErrTLSKeyOpen
           "open /etc/eldim/missing.pem: no such file or directory").
Proof.
  destruct (TLS_files_checked
              (example.settings "/etc/eldim/fullchain.pem"
                 "/etc/eldim/missing.pem" "/etc/eldim/clients.yml" 100 [] []
                 [example.offsite] [example.alpha])) as [_ Hafter].
  destruct (Hafter ltac:(all_pass)) as (_ & _ & _ & Hkey).
  destruct (Hkey "/etc/eldim/fullchain.pem" ltac:(discriminate)
              eq_refl eq_refl) as (_ & Hopen & _).
  apply Hopen; [discriminate | reflexivity].
Defined.

Lemma MaxUploadRAM_positive_witness :
  Config_Validate
    (example.settings "/etc/eldim/fullchain.pem" "/etc/eldim/privkey.pem"
       "/etc/eldim/clients.yml" 0 [] [] [example.offsite] [example.alpha])
  = Err ErrMaxUploadRAM.
Proof.
  apply (proj2 (MaxUploadRAM_positive
           (example.settings "/etc/eldim/fullchain.pem"
              "/etc/eldim/privkey.pem" "/etc/eldim/clients.yml" 0 [] []
              [example.offsite] [example.alpha]))).
  - simpl. lia.
  - all_pass.
Defined.

Lemma first_failing_backend_witness :
  Config_Validate
    (example.settings "/etc/eldim/fullchain.pem" "/etc/eldim/privkey.pem"
       "/etc/eldim/clients.yml" 100 [example.offsite]
       [example.offsite; example.unreachable; example.forgotten]
       [example.forgotten] [example.alpha])
  = Err (ErrGCSBackend "unreachable" "endpoint is empty").
Proof.
  apply (proj1 (proj2 (proj2 (first_failing_backend
           (example.settings "/etc/eldim/fullchain.pem"
              "/etc/eldim/privkey.pem" "/etc/eldim/clients.yml" 100
              [example.offsite]
              [example.offsite; example.unreachable; example.forgotten]
              [example.forgotten] [example.alpha]))
           ltac:(all_pass)))
           [example.offsite] example.unreachable [example.forgotten]).
  - repeat constructor.
  - reflexivity.
  - repeat constructor.
  - reflexivity.
Defined.

Lemma Config_Clients_after_Validate_witness :
  @Config_Clients (example.installation [example.alpha]) string
    example.BackendName example.BackendName example.BackendName
    (example.conf [example.alpha]) <> [].
Proof.
  apply (Config_Clients_after_Validate
           (H := example.installation [example.alpha])
           example.BackendName example.BackendName example.BackendName
           (example.conf [example.alpha])).
  computed.
Defined.

Lemma client_file_errors_witness :
  Config_Validate (example.conf []) = Err ErrNoClients.
Proof.
  apply (proj2 (proj2 (proj2 (client_file_errors (example.conf [])
           ltac:(all_pass)))) "/etc/eldim/clients.yml").
  - discriminate.
  - reflexivity.
  - reflexivity.
Defined.

Lemma first_invalid_client_witness :
  Config_Validate
    (example.conf [example.alpha; example.nameless; example.impostor])
  = Err (ErrClientInvalid "Unnamed Client" 2 ErrClientNoName).
Proof.
  apply (first_invalid_client
           (example.conf [example.alpha; example.nameless; example.impostor])
           "/etc/eldim/clients.yml" [example.alpha] example.nameless
           [example.impostor] ErrClientNoName).
  - all_pass.
  - discriminate.
  - reflexivity.
  - reflexivity.
  - repeat constructor.
  - reflexivity.
Defined.

Lemma duplicate_reported_at_later_entry_witness :
  Config_Validate
    (example.conf [example.alpha; example.beta; example.impostor])
  = Err (ErrClientDupName 3 "alpha").
Proof.
  apply (duplicate_reported_at_later_entry
           (example.conf [example.alpha; example.beta; example.impostor])
           "/etc/eldim/clients.yml" [example.alpha; example.beta]
           example.impostor []).
  - all_pass.
  - discriminate.
  - reflexivity.
  - reflexivity.
  - repeat constructor.
  - exact example_roster_unique.
  - left.
Defined.

Lemma first_reused_address_reported_witness :
  Config_Validate (example.conf [example.alpha; example.twice])
  = Err (ErrClientDupIP "delta" 2 "192.0.2.7").
Proof.
  apply (first_reused_address_reported
           (example.conf [example.alpha; example.twice])
           "/etc/eldim/clients.yml" [example.alpha] example.twice []
           ["192.0.2.7"] "192.0.2.7" []).
  - all_pass.
  - discriminate.
  - reflexivity.
  - reflexivity.
  - repeat constructor.
  - repeat split; apply (bool_decide_unpack _); vm_compute; exact I.
  - apply (bool_decide_unpack _). vm_compute. exact I.
  - apply (bool_decide_unpack _). vm_compute. exact I.
  - reflexivity.
  - apply (bool_decide_unpack _). vm_compute. exact I.
  - apply (bool_decide_unpack _). vm_compute. exact I.
Defined.

Lemma prometheus_errors_in_order_witness :
  Config_Validate
    (example.configure 8443 [example.offsite] "" [example.recipient]
                       true "" "" [example.alpha])
  = Err ErrPrometheusUserMissing.
Proof.
  apply (prometheus_errors_in_order
           (example.configure 8443 [example.offsite] ""
              [example.recipient] true "" "" [example.alpha])).
  - all_pass.
  - reflexivity.
  - reflexivity.
Defined.

Lemma roster_order_irrelevant_witness :
  Config_Validate
    (example.reading "/etc/eldim/clients.d/b.yml"
       [example.alpha; example.beta] [example.beta; example.alpha])
  = Ok tt.
Proof.
  apply (proj1 (roster_order_irrelevant
           (example.reading "/etc/eldim/clients.d/a.yml"
              [example.alpha; example.beta] [example.beta; example.alpha])
           (example.reading "/etc/eldim/clients.d/b.yml"
              [example.alpha; example.beta] [example.beta; example.alpha])
           "/etc/eldim/clients.d/a.yml" "/etc/eldim/clients.d/b.yml"
           [example.alpha; example.beta] [example.beta; example.alpha]
           ltac:(all_pass) ltac:(all_pass)
           ltac:(discriminate) ltac:(discriminate)
           eq_refl eq_refl eq_refl eq_refl
           (perm_swap _ _ _))).
  computed.
Defined.

Lemma roster_entries_removable_witness :
  Config_Validate
    (example.reading "/etc/eldim/clients.d/b.yml"
       [example.alpha; example.beta] [example.beta])
  = Ok tt.
Proof.
  apply (roster_entries_removable
           (example.reading "/etc/eldim/clients.d/a.yml"
              [example.alpha; example.beta] [example.beta])
           (example.reading "/etc/eldim/clients.d/b.yml"
              [example.alpha; example.beta] [example.beta])
           "/etc/eldim/clients.d/a.yml" "/etc/eldim/clients.d/b.yml"
           [example.alpha; example.beta] [example.beta]).
  - all_pass.
  - all_pass.
  - discriminate.
  - discriminate.
  - reflexivity.
  - reflexivity.
  - reflexivity.
  - reflexivity.
  - apply sublist_cons. apply sublist_skip. apply sublist_nil.
  - discriminate.
  - computed.
Defined.

Lemma first_failing_recipient_witness :
  Config_Validate
    (example.configure 8443 [example.offsite] ""
       [example.recipient; "AGE-SECRET-KEY-1QQQ"; "age"] false "" ""
       [example.alpha])
  = Err (ErrAgeID "AGE-SECRET-KEY-1QQQ" "malformed recipient").
Proof.
  apply (proj1 (first_failing_recipient
           (example.configure 8443 [example.offsite] ""
              [example.recipient; "AGE-SECRET-KEY-1QQQ"; "age"] false "" ""
              [example.alpha])
           ltac:(all_pass))
           [example.recipient] "AGE-SECRET-KEY-1QQQ" ["age"]).
  - reflexivity.
  - repeat constructor.
  - reflexivity.
Defined.

Lemma family_tests_decide_the_family_witness :
  families_respected example.mapped.
Proof.
  apply (family_tests_decide_the_family example.mapped).
  - intros a Ha. simpl in Ha.
    apply elem_of_cons in Ha. destruct Ha as [->|Ha]; [vm_compute; discriminate|].
    apply list_elem_of_singleton in Ha. subst a. vm_compute. discriminate.
  - split; intros a Ha; simpl in Ha; apply list_elem_of_singleton in Ha;
      subst a; vm_compute; [discriminate | reflexivity].
Defined.
